(** * Ghost: the dictionary trie and the turn loop of ghost.c

    A shallow embedding of ghost.c.  The trie lives in an explicit heap of
    nodes addressed by pointers, exactly as the C program allocates it; the
    gameplay loop is a transition function over the local variables of
    [main].  Undefined behaviour of the C program (out-of-bounds array
    access, null or dangling dereference, invalid free, printing an
    unterminated buffer) is an explicit [Stuck] result. *)

From Stdlib Require Import ZArith Ascii String.
From stdpp Require Import gmap strings list fin_maps.

Local Open Scope Z_scope.

(** ** Constants of the program *)

Definition CHARS : Z := 26.
Definition MAX_LENGTH : Z := 45.
Definition MIN_LENGTH : Z := 3.
Definition EOF : Z := -1.
Definition EXIT_SUCCESS : Z := 0.
Definition INT_MIN : Z := -2147483648.
Definition INT_MAX : Z := 2147483647.

(** ** Characters

    A [char] is a signed 8-bit integer (as on x86), kept as a [Z] with the
    wrap-around of the conversion written out.  The classification functions
    are those of the C locale, the one in force since the program never
    calls setlocale; on the negative values a [char] can take they answer
    false and [tolower] is the identity, as in glibc. *)

Module Ctype.

(** The value [fgetc] or [scanf] delivers for one byte: 0..255. *)
Definition code (a : ascii) : Z := Z.of_N (N_of_ascii a).

(** Conversion of an [int] in 0..255 to a (signed) [char]. *)
Definition to_char (v : Z) : Z := if 128 <=? v then v - 256 else v.

Definition isupper (c : Z) : bool := (65 <=? c) && (c <=? 90).
Definition islower (c : Z) : bool := (97 <=? c) && (c <=? 122).
Definition isalpha (c : Z) : bool := isupper c || islower c.
Definition isdigit (c : Z) : bool := (48 <=? c) && (c <=? 57).
Definition isspace (c : Z) : bool := (c =? 32) || ((9 <=? c) && (c <=? 13)).
Definition tolower (c : Z) : Z := if isupper c then c + 32 else c.

(** The bytes of a file or of an input line, in order. *)
Definition bytes (s : string) : list Z := code <$> list_ascii_of_string s.

(** The same bytes once stored in [char] variables. *)
Definition chars (s : string) : list Z := to_char <$> bytes s.

End Ctype.
Import Ctype.

(** ** Results: a value, or undefined behaviour *)

Inductive fault :=
| NullDeref        (* access through a NULL pointer *)
| Dangling         (* access through a pointer to a block that is not allocated *)
| OutOfBounds      (* array index outside the array *)
| InvalidFree      (* free of a block that is not allocated *)
| Unterminated     (* a buffer printed with %s that holds no NUL *)
| IntOverflow      (* atoi of a value that does not fit an int *)
| Exhausted.       (* recursion deeper than the fuel given *)

Inductive res (A : Type) :=
| Ok (a : A)
| Stuck (f : fault).
Arguments Ok {A} a.
Arguments Stuck {A} f.

#[global] Instance res_ret : MRet res := λ A a, Ok a.
#[global] Instance res_bind : MBind res := λ A B k r,
  match r with Ok a => k a | Stuck f => Stuck f end.
#[global] Instance res_fmap : FMap res := λ A B g r,
  match r with Ok a => Ok (g a) | Stuck f => Stuck f end.

(** ** The heap of trie nodes *)

Abbreviation addr := nat (only parsing).

(** A pointer to a node: [None] is NULL. *)
Abbreviation ptr := (option addr) (only parsing).

(** [struct node]: the flag and the array of CHARS child pointers. *)
Record node := Node {
  is_word : bool;
  children : list ptr
}.

(** The memory the program works on: the allocated nodes, the global [root],
    the outcomes of the calls to [malloc] still to come ([true]: a block is
    returned, [false] or none left: NULL), and the blocks passed to [free]
    so far, oldest first. *)
Record memory := Memory {
  heap : gmap addr node;
  root : ptr;
  supply : list bool;
  released : list addr
}.

Definition set_heap (h : gmap addr node) (m : memory) : memory :=
  Memory h (root m) (supply m) (released m).

Definition set_root (r : ptr) (m : memory) : memory :=
  Memory (heap m) r (supply m) (released m).

(** The content of a block fresh from [malloc] is indeterminate: the flag is
    set and every slot holds a pointer, so that code relying on it without
    initialising it goes wrong. *)
Definition junk (a : addr) : node := Node true (replicate (Z.to_nat CHARS) (Some a)).

Definition malloc (m : memory) : ptr * memory :=
  match supply m with
  | true :: rest =>
      let a := fresh (dom (heap m)) in
      (Some a, Memory (<[a := junk a]> (heap m)) (root m) rest (released m))
  | false :: rest => (None, Memory (heap m) (root m) rest (released m))
  | [] => (None, m)
  end.

(** [free(p)]: nothing for NULL, otherwise the block must be allocated. *)
Definition free (p : ptr) (m : memory) : res memory :=
  match p with
  | None => Ok m
  | Some a =>
      match heap m !! a with
      | Some _ => Ok (Memory (delete a (heap m)) (root m) (supply m) (released m ++ [a]))
      | None => Stuck InvalidFree
      end
  end.

(** [*p] *)
Definition deref (m : memory) (p : ptr) : res node :=
  match p with
  | None => Stuck NullDeref
  | Some a =>
      match heap m !! a with
      | Some n => Ok n
      | None => Stuck Dangling
      end
  end.

(** The slot of a 26-element array an [int] index designates. *)
Definition slot (index : Z) : res nat :=
  if (0 <=? index) && (index <? CHARS) then Ok (Z.to_nat index) else Stuck OutOfBounds.

(** [n.children[index]] *)
Definition child (n : node) (index : Z) : res ptr :=
  i ← slot index;
  match children n !! i with
  | Some c => Ok c
  | None => Stuck OutOfBounds
  end.

(** [p->children[index]]: the lookup both [load] and the game loop use to
    move down the trie. *)
Definition advance (m : memory) (p : ptr) (index : Z) : res ptr :=
  n ← deref m p;
  child n index.

(** [p->children[index] = c] *)
Definition set_child (p : ptr) (index : Z) (c : ptr) (m : memory) : res memory :=
  n ← deref m p;
  i ← slot index;
  match p, children n !! i with
  | Some a, Some _ =>
      Ok (set_heap (<[a := Node (is_word n) (<[i := c]> (children n))]> (heap m)) m)
  | _, _ => Stuck OutOfBounds
  end.

(** [p->is_word = b] *)
Definition set_is_word (p : ptr) (b : bool) (m : memory) : res memory :=
  n ← deref m p;
  match p with
  | Some a => Ok (set_heap (<[a := Node b (children n)]> (heap m)) m)
  | None => Stuck NullDeref
  end.

(** [for (int i = 0; i < CHARS; i++) body(i)] *)
Fixpoint for_each (indices : list Z) (body : Z → memory → res memory)
    (m : memory) : res memory :=
  match indices with
  | [] => Ok m
  | i :: rest => m' ← body i m; for_each rest body m'
  end.

Definition slots : list Z := Z.of_nat <$> seq 0 (Z.to_nat CHARS).

(** [for (int i = 0; i < CHARS; i++) p->children[i] = NULL;] *)
Definition clear_children (p : ptr) (m : memory) : res memory :=
  for_each slots (λ i m, set_child p i None m) m.

(** ** [load] *)

(** The body of the reading loop of [load] for one character [input]
    (already known not to be EOF): the new [iterator], or [None] where the
    function returns false. *)
Definition load_char (input : Z) (iterator : ptr) (m : memory)
    : res (option ptr * memory) :=
  let input := tolower input in
  let index := input - 97 in
  if input =? 10 then
    m ← set_is_word iterator true m;
    Ok (Some (root m), m)
  else
    c ← advance m iterator index;
    match c with
    | None =>
        let '(new, m) := malloc m in
        match new with
        | None => Ok (None, m)
        | Some _ =>
            m ← clear_children new m;
            m ← set_is_word new false m;
            m ← set_child iterator index new m;
            iterator ← advance m iterator index;
            Ok (Some iterator, m)
        end
    | Some _ => Ok (Some c, m)
    end.

(** The reading loop of [load], over the values [fgetc] still has to deliver;
    at the end of the list [fgetc] returns EOF.  [input] is a [char], so the
    byte 255 compares equal to EOF as well. *)
Fixpoint load_loop (dict : list Z) (iterator : ptr) (m : memory)
    : res (bool * memory) :=
  match dict with
  | [] => Ok (true, m)
  | b :: rest =>
      let input := to_char b in
      if input =? EOF then Ok (true, m) else
      r ← load_char input iterator m;
      match r.1 with
      | Some iterator => load_loop rest iterator r.2
      | None => Ok (false, r.2)
      end
  end.

(** [load]: [dictionary] is the content of the file when it can be opened. *)
Definition load (dictionary : option string) (m : memory) : res (bool * memory) :=
  match dictionary with
  | None => Ok (false, m)
  | Some dict =>
      let '(r, m) := malloc m in
      let m := set_root r m in
      match r with
      | None => Ok (false, m)
      | Some _ =>
          m ← set_is_word (root m) false m;
          m ← clear_children (root m) m;
          load_loop (bytes dict) (root m) m
      end
  end.

(** ** [freeNode] and [unload] *)

(** [freeNode]: the recursion follows pointers, so it is bounded by [fuel];
    [curr->children[i]] is read again for the call to [free]. *)
Fixpoint freeNode (fuel : nat) (curr : ptr) (m : memory) : res memory :=
  match fuel with
  | O => Stuck Exhausted
  | S fuel =>
      match curr with
      | None => Ok m
      | Some _ =>
          for_each slots (λ i m,
            c ← advance m curr i;
            m ← match c with
                | Some _ => freeNode fuel c m
                | None => Ok m
                end;
            c ← advance m curr i;
            free c m) m
      end
  end.

Definition unload (fuel : nat) (m : memory) : res (bool * memory) :=
  m ← freeNode fuel (root m) m;
  m ← free (root m) m;
  Ok (true, m).

(** The memory at program start. *)
Definition boot (supply : list bool) : memory := Memory ∅ None supply [].

(** A text file holding the given words, one per line. *)
Definition unlines (ws : list string) : string :=
  foldr (λ w rest, w +:+ String "010" rest) EmptyString ws.

(** ** The gameplay loop of [main] *)

(** What the program prints, message by message. *)
Inductive event :=
| Banner
| ShowFragment (s : list Z)       (* Current word fragment: %s *)
| Prompt (p : Z)                  (* Player %i says letter: *)
| NoWord (s : list Z) (c : Z)     (* There's no word that begins with "%s%c". Try again. *)
| Loses (p : Z)                   (* Player %i loses! *)
| Spelled (s : list Z)            (* He/She spelled the word "%s". Thanks for playing! *)
| UsageError                      (* stderr: Usage: ghost N *)
| InvalidN                        (* stderr: Invalid argument. *)
| CouldNotLoad                    (* stderr: Could not load *)
| CouldNotUnload.                 (* stderr: Could not unload *)

(** The local variables of [main] the loop works on. *)
Record game := Game {
  curr_player : Z;
  letter_count : Z;
  fragment : list Z;     (* char fragment[MAX_LENGTH] *)
  letter : ptr
}.

(** The string a [char] buffer holds for [%s]: the characters before the
    first NUL. *)
Fixpoint c_string (buf : list Z) : res (list Z) :=
  match buf with
  | [] => Stuck Unterminated
  | c :: rest => if c =? 0 then Ok [] else s ← c_string rest; Ok (c :: s)
  end.

(** [fragment[index] = c] *)
Definition store (buf : list Z) (index : Z) (c : Z) : res (list Z) :=
  if (0 <=? index) && (index <? MAX_LENGTH)
  then Ok (<[Z.to_nat index := c]> buf)
  else Stuck OutOfBounds.

(** Where control goes after one character has been read: back to a read
    (with what is printed on the way), or out of the loop. *)
Inductive progress :=
| Continue (g : game) (out : list event)
| Break (g : game).

(** The program from the moment [scanf] has stored [c] to the next [scanf],
    or to the [break]. *)
Definition turn (N : Z) (m : memory) (g : game) (c : Z) : res progress :=
  if negb (isalpha c) then Ok (Continue g [Prompt (curr_player g)]) else
  let c := tolower c in
  let index := c - 97 in
  next ← advance m (letter g) index;
  match next with
  | None =>
      s ← c_string (fragment g);
      Ok (Continue g [NoWord s c; ShowFragment s; Prompt (curr_player g)])
  | Some _ =>
      buf ← store (fragment g) (letter_count g) c;
      n ← deref m next;
      if is_word n && (MIN_LENGTH <=? letter_count g)
      then Ok (Break (Game (curr_player g) (letter_count g) buf next))
      else
        let g' := Game (Z.rem (curr_player g) N + 1) (letter_count g + 1) buf next in
        s ← c_string buf;
        Ok (Continue g' [ShowFragment s; Prompt (curr_player g')])
  end.

Inductive status :=
| Waiting (g : game)       (* blocked in scanf: no input left *)
| GameOver (g : game).     (* the loop was left by break *)

(** The loop, over the characters the successive calls to [scanf] store.
    When they run out the program is blocked in [scanf], waiting for more:
    the input is what has been typed so far on a stream that stays open.
    The end of the stream, where [scanf] returns EOF and leaves [c] as it
    was, is not part of this model. *)
Fixpoint play (N : Z) (m : memory) (g : game) (stdin : list Z)
    : res (status * list event) :=
  match stdin with
  | [] => Ok (Waiting g, [])
  | c :: rest =>
      p ← turn N m g c;
      match p with
      | Continue g' out =>
          r ← play N m g' rest;
          Ok (r.1, out ++ r.2)
      | Break g' => Ok (GameOver g', [])
      end
  end.

(** ** [main] *)

(** The characters the successive calls [scanf(" %c", &c)] store, from what
    is typed: the next character that is not white space, after which
    [scanf("%*[^\n]%*c")] drops the rest of its line.  [discard] tells
    whether the rest of the current line is being dropped. *)
Fixpoint keystrokes (discard : bool) (stdin : list Z) : list Z :=
  match stdin with
  | [] => []
  | c :: rest =>
      if discard then keystrokes (negb (c =? 10)) rest
      else if isspace c then keystrokes false rest
      else c :: keystrokes true rest
  end.

Fixpoint digits (acc : Z) (s : list Z) : Z :=
  match s with
  | c :: rest => if isdigit c then digits (10 * acc + (c - 48)) rest else acc
  | [] => acc
  end.

Fixpoint skip_spaces (s : list Z) : list Z :=
  match s with
  | c :: rest => if isspace c then skip_spaces rest else s
  | [] => []
  end.

(** [atoi] of the C library: leading white space, an optional sign, then the
    digits up to the first other character; no digits give 0. *)
Definition atoi (s : string) : res Z :=
  let v := match skip_spaces (chars s) with
           | [] => 0
           | c :: rest =>
               if c =? 45 then - digits 0 rest
               else if c =? 43 then digits 0 rest
               else digits 0 (c :: rest)
           end in
  if (INT_MIN <=? v) && (v <=? INT_MAX) then Ok v else Stuck IntOverflow.

(** [greet]: the screen is cleared and the banner printed. *)
Definition greet : list event := [Banner].

Inductive ending :=
| Exit (code : Z)
| Blocked.           (* the process waits for input that does not come *)

(** The variables of [main] before the first iteration. *)
Definition start (m : memory) : game :=
  Game 1 0 (replicate (Z.to_nat MAX_LENGTH) 0) (root m).

(** The end of [main], from the result of [unload]. *)
Definition epilogue (unloaded : bool) : Z * list event :=
  if negb unloaded then (4, [CouldNotUnload]) else (EXIT_SUCCESS, []).

(** [main]: [argv] with the program name first, the content of ./words.txt if
    it can be opened, the outcomes of [malloc], and what has been typed so
    far on a standard input that stays open. *)
Definition main (argv : list string) (words : option string)
    (supply : list bool) (stdin : string) : res (ending * list event * memory) :=
  let m := boot supply in
  if bool_decide (length argv ≠ 2%nat) then Ok (Exit 1, greet ++ [UsageError], m) else
  match argv !! 1%nat with
  | None => Stuck OutOfBounds
  | Some arg =>
      N ← atoi arg;
      if N <? 2 then Ok (Exit 2, greet ++ [InvalidN], m) else
      lm ← load words m;
      let m := lm.2 in
      if negb lm.1 then Ok (Exit 3, greet ++ [CouldNotLoad], m) else
      let g := start m in
      s ← c_string (fragment g);
      r ← play N m g (keystrokes false (chars stdin));
      let out := greet ++ [ShowFragment s; Prompt (curr_player g)] ++ r.2 in
      match r.1 with
      | Waiting _ => Ok (Blocked, out, m)
      | GameOver g =>
          w ← c_string (fragment g);
          um ← unload (S (size (heap m))) m;
          let e := epilogue um.1 in
          Ok (Exit e.1, out ++ [Loses (curr_player g); Spelled w] ++ e.2, um.2)
      end
  end.

(** ** Vocabulary of the statements *)

(** The child slot a character selects: [tolower] first, then the offset
    from 'a', as both [load] and the game loop compute it. *)
Definition key (c : Z) : Z := tolower c - 97.

(** Walking the trie along the characters of [w] with the program's own
    lookup, starting at [p]; NULL once a child is missing. *)
Fixpoint walk (m : memory) (p : ptr) (w : list Z) : res ptr :=
  match w with
  | [] => Ok p
  | c :: rest =>
      match p with
      | None => Ok None
      | Some _ => q ← advance m p (key c); walk m q rest
      end
  end.

(** The node below [a] in slot [i], if there is one. *)
Definition child_of (h : gmap addr node) (a : addr) (i : Z) : option addr :=
  n ← h !! a;
  if bool_decide (0 ≤ i < CHARS) then c ← children n !! Z.to_nat i; c else None.

(** The node at the end of the path of slots [p] from [a]. *)
Fixpoint reach (h : gmap addr node) (a : addr) (p : list Z) : option addr :=
  match p with
  | [] => Some a
  | i :: p => b ← child_of h a i; reach h b p
  end.

(** The heap holds a tree below [r] and nothing else: every node has CHARS
    slots, every child pointer leads to an allocated node, no node is
    reached along two paths, and every allocated node is reached. *)
Record trie (h : gmap addr node) (r : addr) : Prop := {
  trie_root : is_Some (h !! r);
  trie_arity : ∀ a n, h !! a = Some n → length (children n) = Z.to_nat CHARS;
  trie_closed : ∀ a n i b,
    h !! a = Some n → children n !! i = Some (Some b) → is_Some (h !! b);
  trie_inj : ∀ p q a, reach h r p = Some a → reach h r q = Some a → p = q;
  trie_surj : ∀ a, is_Some (h !! a) → ∃ p, reach h r p = Some a
}.

(** The trie holds exactly the words [W] and the unfinished word [cur]: the
    paths present are their prefixes, the flagged nodes are the ends of the
    words of [W]. *)
Record holds (h : gmap addr node) (r : addr) (W : list (list Z)) (cur : list Z)
    : Prop := {
  holds_trie : trie h r;
  holds_paths : ∀ p,
    is_Some (reach h r p) ↔ p `prefix_of` cur ∨ ∃ w, w ∈ W ∧ p `prefix_of` w;
  holds_flags : ∀ p a n,
    reach h r p = Some a → h !! a = Some n → (is_word n = true ↔ p ∈ W)
}.

(** What the reading loop of [load] takes in from the values of [fgetc]: the
    words completed by a newline, as paths of slots, and the path of the
    characters after the last newline. *)
Fixpoint scan (cur : list Z) (dict : list Z) : list (list Z) * list Z :=
  match dict with
  | [] => ([], cur)
  | b :: rest =>
      let c := to_char b in
      if c =? EOF then ([], cur)
      else if tolower c =? 10 then (cur :: (scan [] rest).1, (scan [] rest).2)
      else scan (cur ++ [key c]) rest
  end.

(** The words a dictionary file loads, as paths of slots. *)
Definition entries (dict : string) : list (list Z) := (scan [] (bytes dict)).1.

(** A word of ASCII letters only. *)
Definition alphabetic (w : string) : Prop :=
  Forall (λ c, isalpha c = true) (bytes w).

(** The path of slots a word spells. *)
Definition path_of (w : string) : list Z := key <$> chars w.

(** The nodes strictly below [a]. *)
Definition below (h : gmap addr node) (a x : addr) : Prop :=
  ∃ p, p ≠ [] ∧ reach h a p = Some x.

(** The state of the reading loop of [load]: [iterator] points to the node
    at the end of the unfinished word. *)
Record reading (m : memory) (r it : addr) (W : list (list Z)) (cur : list Z)
    : Prop := {
  reading_root : root m = Some r;
  reading_holds : holds (heap m) r W cur;
  reading_at : reach (heap m) r cur = Some it
}.

(** A character the reading loop can take: the end of the file, a newline,
    or one whose slot exists. *)
Definition readable (b : Z) : Prop :=
  to_char b = EOF ∨ tolower (to_char b) = 10 ∨ 0 ≤ key (to_char b) < CHARS.

(** The memory [load] leaves for a dictionary, with memory available for
    [k] nodes; the memory at program start if [load] fails. *)
Definition loaded_from (ws : list string) (k : nat) : memory :=
  match load (Some (unlines ws)) (boot (replicate k true)) with
  | Ok (true, m) => m
  | _ => boot []
  end.

(** The nodes below [a] through a slot before [i]. *)
Definition below_lt (h : gmap addr node) (a : addr) (i : Z) (x : addr) : Prop :=
  ∃ j p, 0 ≤ j < i ∧ reach h a (j :: p) = Some x.

(** The part of the heap reached from [a] is a tree of depth less than [d]. *)
Record subtree (h : gmap addr node) (a : addr) (d : nat) : Prop := {
  subtree_alloc : ∀ p x, reach h a p = Some x → is_Some (h !! x);
  subtree_arity : ∀ p x n,
    reach h a p = Some x → h !! x = Some n → length (children n) = Z.to_nat CHARS;
  subtree_inj : ∀ p q x, reach h a p = Some x → reach h a q = Some x → p = q;
  subtree_depth : ∀ p x, reach h a p = Some x → (length p < d)%nat
}.

(** From [m] to [m'] exactly the blocks in [P] were freed, each once, and
    nothing else changed. *)
Definition sweep (P : addr → Prop) (m m' : memory) : Prop :=
  root m' = root m ∧ supply m' = supply m ∧
  (∀ x, P x → heap m' !! x = None) ∧
  (∀ x, ¬ P x → heap m' !! x = heap m !! x) ∧
  ∃ l, released m' = released m ++ l ∧ NoDup l ∧ ∀ x, x ∈ l ↔ P x.

(** The body of the loop of [freeNode] on [curr], with [fuel] left for the
    recursive calls. *)
Definition free_slot (fuel : nat) (curr : ptr) (i : Z) (m : memory) : res memory :=
  c ← advance m curr i;
  m ← match c with
      | Some _ => freeNode fuel c m
      | None => Ok m
      end;
  c ← advance m curr i;
  free c m.

(** The invariant of the gameplay loop, for the fragment [s] spelled so far:
    the buffer holds [s] followed by NULs, [letter_count] is its length, and
    [letter] is the node that walking [s] from the root ends at. *)
Record in_step (m : memory) (g : game) (s : list Z) : Prop := {
  in_step_buffer :
    fragment g = s ++ replicate (Z.to_nat MAX_LENGTH - length s) 0;
  in_step_room : (length s < Z.to_nat MAX_LENGTH)%nat;
  in_step_letters : Forall (λ c, islower c = true) s;
  in_step_count : letter_count g = Z.of_nat (length s);
  in_step_cursor : ∃ a, letter g = Some a ∧ walk m (root m) s = Ok (Some a)
}.

(** The player who types each of the characters of [stdin]. *)
Fixpoint movers (N : Z) (m : memory) (g : game) (stdin : list Z) : list Z :=
  match stdin with
  | [] => []
  | c :: rest =>
      curr_player g ::
      match turn N m g c with
      | Ok (Continue g' _) => movers N m g' rest
      | _ => []
      end
  end.

(** What a run of [main] shows: how it ends and what it prints. *)
Definition shown (r : res (ending * list event * memory)) : res (ending * list event) :=
  fst <$> r.

(** An argument that is an integer: an optional sign, then digits only, and
    at least one. *)
Definition is_integer (s : string) : bool :=
  let body := match chars s with
              | [] => []
              | c :: rest => if (c =? 45) || (c =? 43) then rest else c :: rest
              end in
  match body with
  | [] => false
  | _ => forallb isdigit body
  end.

(** A text with its upper-case ASCII letters turned to lower case. *)
Definition lower_case (s : string) : string :=
  string_of_list_ascii
    ((λ a, ascii_of_N (Z.to_N (tolower (code a)))) <$> list_ascii_of_string s).

(** What the trie answers for a word: no node, or the flag of the node the
    word ends at. *)
Definition answer (m : memory) (w : list Z) : option bool :=
  match walk m (root m) w with
  | Ok (Some a) => is_word <$> heap m !! a
  | _ => None
  end.

(** The memory [load] leaves for a dictionary text and outcomes of [malloc],
    whether it succeeds or not; the memory at program start if it goes
    wrong. *)
Definition memory_after (dict : string) (sup : list bool) : memory :=
  match load (Some dict) (boot sup) with
  | Ok (_, m) => m
  | Stuck _ => boot []
  end.

(** ** Elementary facts about results and memory operations *)

Lemma bind_Ok {A B} (e : res A) (k : A → res B) (b : B) :
  e ≫= k = Ok b → ∃ a, e = Ok a ∧ k a = Ok b.
Proof. destruct e as [a|f]; simpl; [eauto | discriminate]. Qed.

Lemma bind_of_Ok {A B} (a : A) (k : A → res B) : Ok a ≫= k = k a.
Proof. reflexivity. Qed.

Ltac inv_bind H :=
  let a := fresh "x" in
  let E := fresh "E" in
  apply bind_Ok in H; destruct H as (a & E & H).

Lemma slot_Ok index k :
  slot index = Ok k ↔ 0 ≤ index < CHARS ∧ k = Z.to_nat index.
Proof.
  unfold slot.
  destruct (0 <=? index) eqn:E1, (index <? CHARS) eqn:E2; simpl;
    split; try (intros ?; simplify_eq; lia); try (intros [? ?]; lia).
  - intros [_ ->]. reflexivity.
Qed.

Lemma slot_in_range index :
  0 ≤ index < CHARS → slot index = Ok (Z.to_nat index).
Proof. intros. by apply slot_Ok. Qed.

Lemma deref_Ok m p n :
  deref m p = Ok n ↔ ∃ a, p = Some a ∧ heap m !! a = Some n.
Proof.
  unfold deref. destruct p as [a|]; [|split; [done | intros (?&?&?); done]].
  destruct (heap m !! a) eqn:E; split; try done.
  - intros [= ->]. eauto.
  - intros (a' & [= <-] & H). rewrite E in H. by simplify_eq.
  - intros (a' & [= <-] & H). rewrite E in H. done.
Qed.

Lemma child_Ok n index c :
  child n index = Ok c ↔ 0 ≤ index < CHARS ∧ children n !! Z.to_nat index = Some c.
Proof.
  unfold child. split.
  - intros H. inv_bind H. apply slot_Ok in E as [? ->].
    destruct (children n !! Z.to_nat index); by simplify_eq.
  - intros [Hr Hc]. rewrite (slot_in_range _ Hr), bind_of_Ok. by rewrite Hc.
Qed.

Lemma advance_Ok m p index c :
  advance m p index = Ok c ↔
  ∃ a n, p = Some a ∧ heap m !! a = Some n ∧ 0 ≤ index < CHARS ∧
         children n !! Z.to_nat index = Some c.
Proof.
  unfold advance. split.
  - intros H. inv_bind H. apply deref_Ok in E as (a & -> & Ha).
    apply child_Ok in H as [? ?]. eauto 10.
  - intros (a & n & -> & Ha & Hr & Hc).
    assert (deref m (Some a) = Ok n) as -> by (apply deref_Ok; eauto).
    rewrite bind_of_Ok. apply child_Ok; auto.
Qed.

Lemma advance_child_of m a index c :
  advance m (Some a) index = Ok c → child_of (heap m) a index = c.
Proof.
  intros (a' & n & [= <-] & Ha & Hr & Hc)%advance_Ok.
  unfold child_of. rewrite Ha. cbn [mbind option_bind].
  rewrite bool_decide_eq_true_2 by done. by rewrite Hc.
Qed.

Lemma child_of_Some h a i b :
  child_of h a i = Some b ↔
  ∃ n, h !! a = Some n ∧ 0 ≤ i < CHARS ∧ children n !! Z.to_nat i = Some (Some b).
Proof.
  unfold child_of. split.
  - destruct (h !! a) as [n|]; cbn [mbind option_bind]; [|done].
    case_bool_decide; [|done].
    destruct (children n !! Z.to_nat i) as [[c|]|] eqn:E;
      cbn [mbind option_bind]; try done.
    intros [= ->]. eauto.
  - intros (n & -> & Hr & Hc). cbn [mbind option_bind].
    rewrite bool_decide_eq_true_2 by done. by rewrite Hc.
Qed.

Lemma set_is_word_Ok p b m m' :
  set_is_word p b m = Ok m' ↔
  ∃ a n, p = Some a ∧ heap m !! a = Some n ∧
         m' = set_heap (<[a := Node b (children n)]> (heap m)) m.
Proof.
  unfold set_is_word. split.
  - intros H. inv_bind H. apply deref_Ok in E as (a & -> & Ha).
    simplify_eq. eauto.
  - intros (a & n & -> & Ha & ->).
    assert (deref m (Some a) = Ok n) as -> by (apply deref_Ok; eauto).
    by rewrite bind_of_Ok.
Qed.

Lemma set_child_Ok p index c m m' :
  set_child p index c m = Ok m' ↔
  ∃ a n, p = Some a ∧ heap m !! a = Some n ∧ 0 ≤ index < CHARS ∧
         (Z.to_nat index < length (children n))%nat ∧
         m' = set_heap (<[a := Node (is_word n)
                                  (<[Z.to_nat index := c]> (children n))]> (heap m)) m.
Proof.
  unfold set_child. split.
  - intros H. inv_bind H. apply deref_Ok in E as (a & -> & Ha).
    inv_bind H. apply slot_Ok in E as [? ->].
    destruct (children x !! Z.to_nat index) eqn:Hc; [|done].
    simplify_eq. apply lookup_lt_Some in Hc. eauto 10.
  - intros (a & n & -> & Ha & Hr & Hl & ->).
    assert (deref m (Some a) = Ok n) as -> by (apply deref_Ok; eauto).
    rewrite bind_of_Ok, (slot_in_range _ Hr), bind_of_Ok.
    apply lookup_lt_is_Some_2 in Hl as [? ->]. done.
Qed.

Lemma set_heap_id m : set_heap (heap m) m = m.
Proof. by destruct m. Qed.

Lemma node_eta n : Node (is_word n) (children n) = n.
Proof. by destruct n. Qed.

(** The initialisation loop overwrites every slot, whatever the block held. *)
Lemma for_each_clear a j : ∀ k m n,
  (k + j = Z.to_nat CHARS)%nat →
  heap m !! a = Some n →
  length (children n) = Z.to_nat CHARS →
  for_each (Z.of_nat <$> seq k j) (λ i m, set_child (Some a) i None m) m
  = Ok (set_heap (<[a := Node (is_word n) (take k (children n) ++ replicate j None)]>
                    (heap m)) m).
Proof.
  induction j as [|j IH]; intros k m n Hk Ha Hn.
  - simpl. rewrite Nat.add_0_r in Hk. rewrite app_nil_r, take_ge by lia.
    by rewrite node_eta, insert_id, set_heap_id.
  - cbn [seq fmap list_fmap for_each].
    assert (set_child (Some a) (Z.of_nat k) None m
            = Ok (set_heap (<[a := Node (is_word n) (<[k := None]> (children n))]>
                              (heap m)) m)) as ->.
    { apply set_child_Ok. exists a, n. rewrite Nat2Z.id.
      unfold CHARS in *. repeat split; auto; lia. }
    rewrite bind_of_Ok.
    erewrite (IH (S k)); [| lia | apply lookup_insert_eq | simpl; by rewrite length_insert].
    f_equal. unfold set_heap. simpl. rewrite insert_insert_eq.
    do 3 f_equal.
    rewrite (take_S_r _ _ None) by (apply list_lookup_insert_eq; lia).
    rewrite take_insert_ge by lia. by rewrite <- app_assoc.
Qed.

Lemma clear_children_spec m a n :
  heap m !! a = Some n →
  length (children n) = Z.to_nat CHARS →
  clear_children (Some a) m
  = Ok (set_heap (<[a := Node (is_word n) (replicate (Z.to_nat CHARS) None)]> (heap m)) m).
Proof.
  intros Ha Hn. unfold clear_children, slots.
  by rewrite (for_each_clear a _ 0%nat m n).
Qed.

Lemma malloc_Some m a m' :
  malloc m = (Some a, m') →
  heap m !! a = None ∧
  m' = Memory (<[a := junk a]> (heap m)) (root m) (tail (supply m)) (released m).
Proof.
  unfold malloc. destruct (supply m) as [|[] rest]; try done.
  intros [= <- <-]. split; [|done].
  apply not_elem_of_dom, is_fresh.
Qed.

Lemma malloc_None m m' :
  malloc m = (None, m') →
  heap m' = heap m ∧ root m' = root m ∧ released m' = released m.
Proof.
  unfold malloc. destruct (supply m) as [|[] rest]; try done; by intros [= <-].
Qed.

(** ** Paths in the heap *)

Lemma reach_app h a p q :
  reach h a (p ++ q) = reach h a p ≫= λ b, reach h b q.
Proof.
  revert a. induction p as [|i p IH]; intros a; [done|].
  simpl. destruct (child_of h a i); simpl; [apply IH | done].
Qed.

Lemma reach_snoc h a p i b :
  reach h a p = Some b → reach h a (p ++ [i]) = child_of h b i.
Proof.
  intros H. rewrite reach_app, H. simpl. by destruct (child_of h b i).
Qed.

Lemma reach_prefix h a p q :
  is_Some (reach h a (p ++ q)) → is_Some (reach h a p).
Proof.
  rewrite reach_app. destruct (reach h a p); [eauto | by intros [? ?]].
Qed.

(** Heaps that agree on the nodes reached from [a] have the same paths
    from [a]. *)
Lemma reach_agree h h' a p :
  (∀ q y, reach h a q = Some y → h' !! y = h !! y) →
  reach h' a p = reach h a p.
Proof.
  revert a. induction p as [|i p IH]; intros a Hag; [done|].
  simpl. assert (child_of h' a i = child_of h a i) as ->.
  { unfold child_of. by rewrite (Hag [] a). }
  destruct (child_of h a i) as [b|] eqn:Hb; simpl; [|done].
  apply IH. intros q y Hq. apply (Hag (i :: q)). simpl. by rewrite Hb.
Qed.

(** Paths only depend on the child arrays. *)
Lemma reach_children h h' a p :
  (∀ x, children <$> h' !! x = children <$> h !! x) →
  reach h' a p = reach h a p.
Proof.
  intros Hc. revert a. induction p as [|i p IH]; intros a; [done|].
  simpl. assert (child_of h' a i = child_of h a i) as ->.
  { unfold child_of. specialize (Hc a).
    destruct (h' !! a), (h !! a); simplify_eq/=; try done. by rewrite Hc. }
  destruct (child_of h a i); simpl; [apply IH | done].
Qed.

Section trie_facts.
Context {h : gmap addr node} {r : addr} (T : trie h r).

Lemma child_of_allocated a i b : child_of h a i = Some b → is_Some (h !! b).
Proof.
  intros (n & Ha & _ & Hc)%child_of_Some. eapply trie_closed; eauto.
Qed.

Lemma reach_allocated_from a p b :
  is_Some (h !! a) → reach h a p = Some b → is_Some (h !! b).
Proof.
  revert a. induction p as [|i p IH]; intros a Ha; simpl.
  - by intros [= <-].
  - destruct (child_of h a i) as [c|] eqn:Hc; simpl; [|done].
    apply IH. by eapply child_of_allocated.
Qed.

Lemma reach_allocated p b : reach h r p = Some b → is_Some (h !! b).
Proof. apply reach_allocated_from, T. Qed.

End trie_facts.

(** ** The steps of the reading loop keep the trie *)

Lemma is_Some_insert (h : gmap addr node) a x b :
  is_Some (h !! b) → is_Some (<[a := x]> h !! b).
Proof. rewrite lookup_insert_is_Some'. auto. Qed.

Lemma prefix_snoc_inv {A} (p l : list A) x :
  p `prefix_of` l ++ [x] → p `prefix_of` l ∨ p = l ++ [x].
Proof.
  intros [k Hk]. destruct (decide (k = [])) as [->|Hne].
  - right. by rewrite app_nil_r in Hk.
  - left. destruct (exists_last Hne) as (k' & y & ->).
    rewrite app_assoc in Hk. apply app_inj_tail in Hk as [-> _].
    by eexists.
Qed.

Section newline.
Context (h : gmap addr node) (r it : addr) (n : node)
        (W : list (list Z)) (cur : list Z).
Hypothesis (H : holds h r W cur).
Hypothesis (Hcur : reach h r cur = Some it).
Hypothesis (Hit : h !! it = Some n).

Local Abbreviation h' := (<[it := Node true (children n)]> h).

Lemma newline_reach a p : reach h' a p = reach h a p.
Proof.
  apply reach_children. intros x.
  destruct (decide (x = it)) as [->|Hne].
  - by rewrite lookup_insert_eq, Hit.
  - by rewrite lookup_insert_ne.
Qed.

Lemma newline_allocated a : is_Some (h' !! a) ↔ is_Some (h !! a).
Proof.
  rewrite lookup_insert_is_Some'. split; [|auto].
  intros [<-|?]; [by rewrite Hit | done].
Qed.

Lemma newline_trie : trie h' r.
Proof.
  destruct H as [T _ _]. split.
  - apply newline_allocated, T.
  - intros a na. destruct (decide (a = it)) as [->|Hne].
    + rewrite lookup_insert_eq. intros [= <-]. simpl. by eapply trie_arity.
    + rewrite lookup_insert_ne by done. by eapply trie_arity.
  - intros a na i b Ha Hb. apply newline_allocated.
    destruct (decide (a = it)) as [->|Hne].
    + rewrite lookup_insert_eq in Ha. simplify_eq. simpl in Hb.
      by eapply trie_closed.
    + rewrite lookup_insert_ne in Ha by done. by eapply trie_closed.
  - intros p q a. rewrite !newline_reach. by eapply trie_inj.
  - intros a Ha%newline_allocated.
    destruct (trie_surj _ _ T a Ha) as [p Hp]. exists p.
    by rewrite newline_reach.
Qed.

Lemma holds_newline : holds h' r (W ++ [cur]) [].
Proof.
  split; [apply newline_trie | |].
  - intros p. rewrite newline_reach, (holds_paths _ _ _ _ H). split.
    + intros [Hp|(w & Hw & Hp)]; right.
      * exists cur. split; [set_solver | done].
      * exists w. split; [set_solver | done].
    + intros [Hp|(w & Hw & Hp)].
      * apply prefix_nil_inv in Hp as ->. left. apply prefix_nil.
      * apply elem_of_app in Hw as [Hw|Hw]; [eauto|].
        apply list_elem_of_singleton in Hw as ->. auto.
  - intros p a na. rewrite newline_reach. intros Hp Ha.
    rewrite elem_of_app, list_elem_of_singleton.
    destruct (decide (a = it)) as [->|Hne].
    + rewrite lookup_insert_eq in Ha. simplify_eq. simpl.
      split; [|done]. intros _. right.
      eapply trie_inj; eauto using holds_trie.
    + rewrite lookup_insert_ne in Ha by done.
      rewrite (holds_flags _ _ _ _ H p a na Hp Ha).
      split; [auto|]. intros [?| ->]; [done|]. congruence.
Qed.
End newline.

(** Moving down to a child that exists. *)
Lemma holds_follow h r W cur it i b :
  holds h r W cur →
  reach h r cur = Some it →
  child_of h it i = Some b →
  holds h r W (cur ++ [i]).
Proof.
  intros H Hcur Hb. split; [apply H | | apply H].
  intros p. rewrite (holds_paths _ _ _ _ H). split.
  - intros [Hp|Hw]; [left; by apply prefix_app_r | by right].
  - intros [Hp|Hw]; [|by right].
    apply prefix_snoc_inv in Hp as [Hp| ->]; [by left|].
    apply (holds_paths _ _ _ _ H).
    rewrite (reach_snoc _ _ _ _ _ Hcur), Hb. eauto.
Qed.

(** Linking a new leaf below [it] in slot [i], which was empty. *)
Section extend.
Context (h : gmap addr node) (r it new : addr) (n : node) (i : Z).
Hypothesis (T : trie h r).
Hypothesis (Hit : h !! it = Some n).
Hypothesis (Hi : 0 ≤ i < CHARS).
Hypothesis (Hnull : children n !! Z.to_nat i = Some None).
Hypothesis (Hnew : h !! new = None).

Local Abbreviation leaf := (Node false (replicate (Z.to_nat CHARS) None)).
Local Abbreviation h' :=
  (<[it := Node (is_word n) (<[Z.to_nat i := Some new]> (children n))]>
     (<[new := leaf]> h)).

Lemma extend_ne : it ≠ new.
Proof. intros ->. by rewrite Hit in Hnew. Qed.

Lemma extend_lookup_it :
  h' !! it = Some (Node (is_word n) (<[Z.to_nat i := Some new]> (children n))).
Proof. by rewrite lookup_insert_eq. Qed.

Lemma extend_lookup_new : h' !! new = Some leaf.
Proof.
  rewrite lookup_insert_ne by apply extend_ne.
  by rewrite lookup_insert_eq.
Qed.

Lemma extend_lookup_other a : a ≠ it → a ≠ new → h' !! a = h !! a.
Proof. intros ??. by rewrite !lookup_insert_ne. Qed.

Lemma extend_allocated a : is_Some (h !! a) → is_Some (h' !! a).
Proof. intros ?. by do 2 apply is_Some_insert. Qed.

Lemma extend_allocated_inv a : is_Some (h' !! a) → a = new ∨ is_Some (h !! a).
Proof.
  rewrite !lookup_insert_is_Some'.
  intros [<-|[<-|?]]; auto.
Qed.

Lemma extend_child_old a j b : child_of h a j = Some b → child_of h' a j = Some b.
Proof.
  intros (na & Ha & Hj & Hb)%child_of_Some. apply child_of_Some.
  assert (a ≠ new) by (intros ->; by rewrite Ha in Hnew).
  destruct (decide (a = it)) as [->|Hne].
  - assert (na = n) as -> by congruence.
    eexists. split; [apply extend_lookup_it|].
    split; [done|]. simpl. rewrite list_lookup_insert_ne; [done|].
    intros E. rewrite E in Hnull. by rewrite Hnull in Hb.
  - exists na. by rewrite extend_lookup_other.
Qed.

Lemma extend_child_new : child_of h' it i = Some new.
Proof.
  apply child_of_Some. eexists. split; [apply extend_lookup_it|].
  split; [done|]. simpl. apply list_lookup_insert_eq.
  by eapply lookup_lt_Some.
Qed.

Lemma extend_leaf j : child_of h' new j = None.
Proof.
  destruct (child_of h' new j) as [b|] eqn:E; [|done].
  apply child_of_Some in E as (na & Ha & _ & Hb).
  rewrite extend_lookup_new in Ha. simplify_eq. cbn [children] in Hb.
  by apply lookup_replicate in Hb as [? _].
Qed.

Lemma extend_child_inv a j b :
  is_Some (h !! a) →
  child_of h' a j = Some b →
  child_of h a j = Some b ∨ (a = it ∧ j = i ∧ b = new).
Proof.
  intros Ha (na & Hna & Hj & Hb)%child_of_Some.
  assert (a ≠ new) by (intros ->; rewrite Hnew in Ha; by destruct Ha).
  destruct (decide (a = it)) as [->|Hne].
  - rewrite extend_lookup_it in Hna. simplify_eq. simpl in Hb.
    destruct (decide (Z.to_nat i = Z.to_nat j)) as [E|E].
    + rewrite <- E in Hb. rewrite list_lookup_insert_eq in Hb
        by (by eapply lookup_lt_Some).
      right. simplify_eq. repeat split; lia.
    + rewrite list_lookup_insert_ne in Hb by done.
      left. apply child_of_Some. eauto.
  - rewrite extend_lookup_other in Hna by done.
    left. apply child_of_Some. eauto.
Qed.

Lemma extend_reach_old p : ∀ a b,
  reach h a p = Some b → reach h' a p = Some b.
Proof.
  induction p as [|j p IH]; intros a b; [done|]. cbn [reach mbind option_bind].
  destruct (child_of h a j) as [c|] eqn:Hc; [|done]. cbn [reach mbind option_bind].
  rewrite (extend_child_old _ _ _ Hc). cbn [reach mbind option_bind]. apply IH.
Qed.

Lemma extend_reach_inv p : ∀ a b,
  is_Some (h !! a) →
  reach h' a p = Some b →
  reach h a p = Some b ∨ ∃ q, p = q ++ [i] ∧ reach h a q = Some it ∧ b = new.
Proof.
  induction p as [|j p IH]; intros a b Ha; [by left|].
  cbn [reach mbind option_bind].
  destruct (child_of h' a j) as [c|] eqn:Hc; [|done].
  cbn [reach mbind option_bind]. intros Hp.
  destruct (extend_child_inv _ _ _ Ha Hc) as [Hold|(-> & -> & ->)].
  - rewrite Hold. cbn [reach mbind option_bind].
    destruct (IH c b (child_of_allocated T _ _ _ Hold) Hp)
      as [?|(q & -> & Hq & ->)]; [by left|].
    right. exists (j :: q). cbn [reach mbind option_bind]. by rewrite Hold.
  - right. exists [].
    destruct p as [|k p]; cbn [reach mbind option_bind] in Hp.
    + by simplify_eq.
    + by rewrite extend_leaf in Hp.
Qed.

Lemma extend_reach_new cur :
  reach h r cur = Some it → reach h' r (cur ++ [i]) = Some new.
Proof.
  intros Hcur. rewrite (reach_snoc _ _ _ _ it); [apply extend_child_new|].
  by apply extend_reach_old.
Qed.

Lemma extend_trie cur : reach h r cur = Some it → trie h' r.
Proof.
  intros Hcur. split.
  - apply extend_allocated, T.
  - intros a na Ha.
    destruct (decide (a = it)) as [->|?]; [|destruct (decide (a = new)) as [->|?]].
    + rewrite extend_lookup_it in Ha. simplify_eq. simpl.
      rewrite length_insert. by eapply trie_arity.
    + rewrite extend_lookup_new in Ha. simplify_eq. apply length_replicate.
    + rewrite extend_lookup_other in Ha by done. by eapply trie_arity.
  - intros a na j b Ha Hb.
    destruct (decide (a = it)) as [->|?]; [|destruct (decide (a = new)) as [->|?]].
    + rewrite extend_lookup_it in Ha. simplify_eq. simpl in Hb.
      destruct (decide (Z.to_nat i = j)) as [<-|?].
      * rewrite list_lookup_insert_eq in Hb by (by eapply lookup_lt_Some).
        assert (b = new) as -> by congruence.
        rewrite extend_lookup_new. eauto.
      * rewrite list_lookup_insert_ne in Hb by done.
        apply extend_allocated. by eapply trie_closed.
    + rewrite extend_lookup_new in Ha. simplify_eq. cbn [children] in Hb.
      by apply lookup_replicate in Hb as [? _].
    + rewrite extend_lookup_other in Ha by done.
      apply extend_allocated. by eapply trie_closed.
  - intros p q a Hp Hq.
    destruct (extend_reach_inv _ _ _ (trie_root _ _ T) Hp)
      as [Hp'|(p1 & -> & Hp1 & ->)];
    destruct (extend_reach_inv _ _ _ (trie_root _ _ T) Hq)
      as [Hq'|(q1 & -> & Hq1 & Hnew')].
    + by eapply trie_inj.
    + subst a. apply (reach_allocated T) in Hp'. rewrite Hnew in Hp'.
      by destruct Hp'.
    + apply (reach_allocated T) in Hq'. rewrite Hnew in Hq'. by destruct Hq'.
    + f_equal. by eapply trie_inj.
  - intros a [->|Ha]%extend_allocated_inv.
    + exists (cur ++ [i]). by apply extend_reach_new.
    + destruct (trie_surj _ _ T a Ha) as [p Hp]. exists p.
      by apply extend_reach_old.
Qed.

Lemma holds_extend W cur :
  holds h r W cur →
  reach h r cur = Some it →
  holds h' r W (cur ++ [i]).
Proof.
  intros H Hcur.
  assert (child_of h it i = None) as Hnone.
  { unfold child_of. rewrite Hit. cbn [mbind option_bind].
    rewrite bool_decide_eq_true_2 by done. by rewrite Hnull. }
  split; [by apply (extend_trie cur) | |].
  - intros p. split.
    + intros [a Hp].
      destruct (extend_reach_inv _ _ _ (trie_root _ _ T) Hp)
        as [Hp'|(p1 & -> & Hp1 & ->)].
      * assert (is_Some (reach h r p)) as Hs by eauto.
        apply (holds_paths _ _ _ _ H) in Hs as [?|?]; [left|by right].
        by apply prefix_app_r.
      * left. by rewrite (trie_inj _ _ T _ _ _ Hp1 Hcur).
    + intros [Hp|Hw].
      * apply prefix_snoc_inv in Hp as [Hp| ->].
        -- assert (is_Some (reach h r p)) as [a Ha]
             by (apply (holds_paths _ _ _ _ H); by left).
           exists a. by apply extend_reach_old.
        -- rewrite (extend_reach_new _ Hcur). eauto.
      * assert (is_Some (reach h r p)) as [a Ha]
          by (apply (holds_paths _ _ _ _ H); by right).
        exists a. by apply extend_reach_old.
  - intros p a na Hp Ha.
    destruct (extend_reach_inv _ _ _ (trie_root _ _ T) Hp)
      as [Hp'|(p1 & -> & Hp1 & ->)].
    + destruct (reach_allocated T _ _ Hp') as [na' Ha'].
      assert (a ≠ new) by (intros ->; by rewrite Hnew in Ha').
      rewrite <- (holds_flags _ _ _ _ H p a na' Hp' Ha').
      destruct (decide (a = it)) as [->|?].
      * rewrite extend_lookup_it in Ha. by simplify_eq.
      * rewrite extend_lookup_other in Ha by done. by simplify_eq.
    + rewrite extend_lookup_new in Ha. simplify_eq. simpl.
      split; [done|]. intros Hin. exfalso.
      assert (is_Some (reach h r (p1 ++ [i]))) as [b Hb].
      { apply (holds_paths _ _ _ _ H). right. by exists (p1 ++ [i]). }
      rewrite (reach_snoc _ _ _ _ _ Hp1), Hnone in Hb. done.
Qed.
End extend.

(** ** One character of the dictionary *)

Lemma load_char_newline m r it W cur c :
  reading m r it W cur →
  tolower c = 10 →
  ∃ m', load_char c (Some it) m = Ok (Some (Some r), m') ∧
        reading m' r r (W ++ [cur]) [] ∧
        released m' = released m ∧ supply m' = supply m.
Proof.
  intros [Hr H Hcur] Hc. unfold load_char. rewrite Hc. cbn [Z.eqb Pos.eqb].
  destruct (reach_allocated (holds_trie _ _ _ _ H) _ _ Hcur) as [n Hn].
  assert (set_is_word (Some it) true m
          = Ok (set_heap (<[it := Node true (children n)]> (heap m)) m)) as ->.
  { apply set_is_word_Ok. eauto. }
  rewrite bind_of_Ok. eexists. split; [by rewrite <- Hr|].
  split; [|done]. split; [done | | done].
  by apply holds_newline.
Qed.

Lemma load_char_letter m r it W cur c :
  reading m r it W cur →
  0 ≤ key c < CHARS →
  ∃ p m', load_char c (Some it) m = Ok (p, m') ∧
          released m' = released m ∧ root m' = Some r ∧
          match p with
          | Some q => ∃ it', q = Some it' ∧ reading m' r it' W (cur ++ [key c])
          | None => True
          end.
Proof.
  intros [Hr H Hcur] Hc. unfold load_char.
  assert ((tolower c =? 10) = false) as -> by (unfold key, CHARS in Hc; lia).
  fold (key c).
  pose proof (holds_trie _ _ _ _ H) as T.
  destruct (reach_allocated T _ _ Hcur) as [n Hn].
  pose proof (trie_arity _ _ T _ _ Hn) as Hlen.
  destruct (lookup_lt_is_Some_2 (children n) (Z.to_nat (key c))) as [ch Hch];
    [unfold CHARS in *; lia|].
  assert (advance m (Some it) (key c) = Ok ch) as ->
    by (apply advance_Ok; eauto 10).
  rewrite bind_of_Ok. destruct ch as [b|].
  - exists (Some (Some b)), m. split; [done|]. split; [done|]. split; [done|].
    exists b. split; [done|].
    assert (child_of (heap m) it (key c) = Some b) as Hb
      by (apply child_of_Some; eauto).
    split; [done | by eapply holds_follow |].
    by rewrite (reach_snoc _ _ _ _ _ Hcur).
  - destruct (malloc m) as [[a|] m1] eqn:Hm.
    + apply malloc_Some in Hm as [Hfresh ->].
      erewrite clear_children_spec;
        [| apply lookup_insert_eq | apply length_replicate].
      rewrite bind_of_Ok.
      erewrite (proj2 (set_is_word_Ok _ _ _ _));
        [|eexists _, _; split; [done|]; split; [apply lookup_insert_eq | done]].
      rewrite bind_of_Ok. unfold set_heap. cbn [heap root supply released].
      rewrite !insert_insert_eq. cbn [is_word children].
      assert (it ≠ a) as Hne by (intros ->; by rewrite Hn in Hfresh).
      erewrite (proj2 (set_child_Ok _ _ _ _ _));
        [|eexists _, _; split; [done|]; cbn [heap];
          split; [by rewrite lookup_insert_ne|];
          split; [done|]; split; [by eapply lookup_lt_Some | done]].
      rewrite bind_of_Ok. unfold set_heap. cbn [heap root supply released].
      erewrite (proj2 (advance_Ok _ _ _ _));
        [|eexists _, _; split; [done|]; cbn [heap];
          split; [apply lookup_insert_eq|]; split; [done|]; cbn [children];
          apply list_lookup_insert_eq; by eapply lookup_lt_Some].
      rewrite bind_of_Ok.
      eexists _, _. split; [done|]. cbn [released root].
      split; [done|]. split; [done|]. exists a. split; [done|].
      split; cbn [heap root].
      * done.
      * by apply holds_extend.
      * by apply extend_reach_new.
    + apply malloc_None in Hm as (? & ? & ?).
      exists None, m1. repeat split; congruence.
Qed.

Lemma load_char_readable c p m r :
  load_char c p m = Ok r → tolower c = 10 ∨ 0 ≤ key c < CHARS.
Proof.
  unfold load_char. destruct (tolower c =? 10) eqn:E; [lia|].
  intros H. inv_bind H. apply advance_Ok in E0 as (_ & _ & _ & _ & ? & _).
  by right.
Qed.

(** ** The reading loop *)

(** Whenever the loop runs to the end of the file, the trie holds what
    [scan] lists. *)
Lemma load_loop_reading dict : ∀ m r it W cur m',
  reading m r it W cur →
  load_loop dict (Some it) m = Ok (true, m') →
  ∃ it', reading m' r it' (W ++ (scan cur dict).1) (scan cur dict).2 ∧
         released m' = released m.
Proof.
  induction dict as [|b dict IH]; intros m r it W cur m' R; cbn [load_loop scan].
  - intros [= <-]. exists it. by rewrite app_nil_r.
  - destruct (to_char b =? EOF) eqn:Eeof.
    { intros [= <-]. exists it. by rewrite app_nil_r. }
    intros Hl. inv_bind Hl. destruct x as [p m1]. cbn [fst snd] in Hl.
    destruct (load_char_readable _ _ _ _ E) as [Hnl|Hkey].
    + destruct (load_char_newline _ _ _ _ _ _ R Hnl) as (m2 & E2 & R2 & Hrel & _).
      rewrite E in E2. injection E2 as -> ->.
      rewrite Hnl. cbn [Z.eqb Pos.eqb fst snd].
      destruct (IH _ _ _ _ _ _ R2 Hl) as (it' & R' & Hrel').
      exists it'. rewrite <- app_assoc in R'. split; [done | congruence].
    + destruct (load_char_letter _ _ _ _ _ _ R Hkey)
        as (p2 & m2 & E2 & Hrel & _ & Hp).
      rewrite E in E2. injection E2 as <- <-.
      assert ((tolower (to_char b) =? 10) = false) as ->
        by (unfold key, CHARS in Hkey; lia).
      destruct p as [q|]; [|done]. destruct Hp as (it1 & -> & R1).
      destruct (IH _ _ _ _ _ _ R1 Hl) as (it' & R' & Hrel').
      exists it'. split; [done | congruence].
Qed.

(** On readable characters the loop never goes wrong. *)
Lemma load_loop_total dict : ∀ m r it W cur,
  reading m r it W cur →
  Forall readable dict →
  ∃ b m', load_loop dict (Some it) m = Ok (b, m').
Proof.
  induction dict as [|b dict IH]; intros m r it W cur R Hd; cbn [load_loop].
  - eauto.
  - destruct (to_char b =? EOF) eqn:Eeof; [eauto|].
    apply Forall_cons in Hd as [[Hb|[Hb|Hb]] Hd]; [lia | |].
    + destruct (load_char_newline _ _ _ _ _ _ R Hb) as (m2 & -> & R2 & _).
      rewrite bind_of_Ok. cbn [fst snd]. by eapply IH.
    + destruct (load_char_letter _ _ _ _ _ _ R Hb) as (p & m2 & -> & _ & _ & Hp).
      rewrite bind_of_Ok. cbn [fst snd]. destruct p as [q|]; [|eauto].
      destruct Hp as (it1 & -> & R1). by eapply IH.
Qed.

(** [load_char] takes at most one outcome of [malloc], and gives up only
    when [malloc] does. *)
Lemma for_each_set_child_supply p c idx : ∀ m m',
  for_each idx (λ i m, set_child p i c m) m = Ok m' → supply m' = supply m.
Proof.
  induction idx as [|i idx IH]; intros m m'; cbn [for_each].
  - by intros [= <-].
  - intros H. inv_bind H.
    apply set_child_Ok in E as (a & n & _ & _ & _ & _ & ->).
    by rewrite (IH _ _ H).
Qed.

Lemma load_char_supply c it m p m' :
  load_char c (Some it) m = Ok (p, m') →
  (supply m' = supply m ∨ supply m' = tail (supply m)) ∧
  (p = None → ∀ rest, supply m ≠ true :: rest).
Proof.
  unfold load_char. destruct (tolower c =? 10).
  - intros H. inv_bind H. apply set_is_word_Ok in E as (a & n & _ & _ & ->).
    injection H as <- <-. by split; [left|].
  - intros H. inv_bind H. destruct x as [b|].
    + injection H as <- <-. by split; [left|].
    + unfold malloc in H. destruct (supply m) as [|[] rest] eqn:Hs.
      * injection H as <- <-. rewrite Hs. by split; [left|].
      * inv_bind H. inv_bind H. inv_bind H. inv_bind H. injection H as <- <-.
        apply for_each_set_child_supply in E0.
        apply set_is_word_Ok in E1 as (? & ? & _ & _ & ->).
        apply set_child_Ok in E2 as (? & ? & _ & _ & _ & _ & ->).
        cbn [supply set_heap] in *. rewrite E0. split; [by right | done].
      * injection H as <- <-. cbn [supply]. split; [by right | done].
Qed.

(** With a block available for every character, the loop reaches the end of
    the file. *)
Lemma load_loop_succeeds dict : ∀ m r it W cur k,
  reading m r it W cur →
  Forall readable dict →
  supply m = replicate k true →
  (length dict ≤ k)%nat →
  ∃ m', load_loop dict (Some it) m = Ok (true, m').
Proof.
  induction dict as [|b dict IH]; intros m r it W cur k R Hd Hs Hk;
    cbn [load_loop]; [eauto|].
  destruct (to_char b =? EOF) eqn:Eeof; [eauto|].
  cbn [length] in Hk. destruct k as [|k]; [lia|].
  apply Forall_cons in Hd as [Hb Hd].
  assert (∃ p m1 it1 W1 cur1,
            load_char (to_char b) (Some it) m = Ok (p, m1) ∧
            (p = None ∨ p = Some (Some it1) ∧ reading m1 r it1 W1 cur1))
    as (p & m1 & it1 & W1 & cur1 & Hc & Hp).
  { destruct Hb as [Hb|[Hb|Hb]]; [lia | |].
    - destruct (load_char_newline _ _ _ _ _ _ R Hb) as (m2 & -> & R2 & _).
      eauto 10.
    - destruct (load_char_letter _ _ _ _ _ _ R Hb) as (p & m2 & -> & _ & _ & Hp).
      destruct p as [q|]; [|exists None, m2, it, W, cur; auto].
      destruct Hp as (it1 & -> & R1). eauto 10. }
  rewrite Hc, bind_of_Ok. cbn [fst snd].
  destruct (load_char_supply _ _ _ _ _ Hc) as [Hsup Hnone].
  destruct Hp as [->|[-> R1]].
  { exfalso. by eapply (Hnone eq_refl), Hs. }
  destruct Hsup as [Hsup|Hsup]; rewrite Hs in Hsup.
  - apply (IH _ _ _ _ _ (S k) R1 Hd Hsup). lia.
  - apply (IH _ _ _ _ _ k R1 Hd Hsup). lia.
Qed.

(** ** [load] as a whole *)

Lemma leaf_reach a p x :
  reach {[a := Node false (replicate (Z.to_nat CHARS) None)]} a p = Some x →
  p = [] ∧ x = a.
Proof.
  destruct p as [|j p]; cbn [reach]; [by intros [= <-]|].
  destruct (child_of _ a j) as [b|] eqn:E; [|done].
  apply child_of_Some in E as (n & Hn & _ & Hb).
  rewrite lookup_singleton_eq in Hn. simplify_eq. cbn [children] in Hb.
  by apply lookup_replicate in Hb as [? _].
Qed.

(** The trie [load] starts from: the root alone, for no word at all. *)
Lemma holds_initial a :
  holds {[a := Node false (replicate (Z.to_nat CHARS) None)]} a [] [].
Proof.
  split; [split|..].
  - rewrite lookup_singleton_eq. eauto.
  - intros x n [-> <-]%lookup_singleton_Some. apply length_replicate.
  - intros x n i b [-> <-]%lookup_singleton_Some Hb. cbn [children] in Hb.
    by apply lookup_replicate in Hb as [? _].
  - intros p q x [-> _]%leaf_reach [-> _]%leaf_reach. done.
  - intros x [n [-> _]%lookup_singleton_Some]. by exists [].
  - intros p. split.
    + intros [x [-> _]%leaf_reach]. by left.
    + intros [Hp|(w & Hw & _)]; [|by apply elem_of_nil in Hw].
      apply prefix_nil_inv in Hp as ->. eauto.
  - intros p x n [-> ->]%leaf_reach [_ <-]%lookup_singleton_Some.
    cbn [is_word]. split; [done|]. by intros ?%elem_of_nil.
Qed.

(** The state in which [load] enters its reading loop. *)
Lemma load_unfold dict sup :
  load (Some dict) (boot sup) =
  match sup with
  | true :: rest =>
      let a := fresh (dom (∅ : gmap addr node)) in
      load_loop (bytes dict) (Some a)
        (Memory {[a := Node false (replicate (Z.to_nat CHARS) None)]} (Some a) rest [])
  | false :: rest => Ok (false, Memory ∅ None rest [])
  | [] => Ok (false, Memory ∅ None [] [])
  end.
Proof.
  unfold load, malloc, boot. cbn [supply heap root released].
  by destruct sup as [|[] rest].
Qed.

(** After a successful [load] the heap is a trie below [root] that holds
    exactly the words of the file. *)
Lemma load_holds dict sup m :
  load (Some dict) (boot sup) = Ok (true, m) →
  ∃ r, root m = Some r ∧ released m = [] ∧
       holds (heap m) r (entries dict) (scan [] (bytes dict)).2.
Proof.
  rewrite load_unfold. destruct sup as [|[] rest]; try done.
  cbv zeta. intros Hl.
  eapply (load_loop_reading _ _ _ _ [] []) in Hl as (it & [Hr H _] & Hrel).
  - eexists. split; [done|]. split; [done|]. apply H.
  - split; [done | apply holds_initial | done].
Qed.

Lemma load_readable dict sup :
  Forall readable (bytes dict) →
  ∃ b m, load (Some dict) (boot sup) = Ok (b, m).
Proof.
  intros Hd. rewrite load_unfold. destruct sup as [|[] rest]; eauto.
  cbv zeta. eapply (load_loop_total _ _ _ _ [] []); [|done].
  split; [done | apply holds_initial | done].
Qed.

Lemma load_succeeds dict k :
  Forall readable (bytes dict) →
  (length (bytes dict) < k)%nat →
  ∃ m, load (Some dict) (boot (replicate k true)) = Ok (true, m).
Proof.
  intros Hd Hk. rewrite load_unfold. destruct k as [|k]; [lia|].
  cbn [replicate]. cbv zeta.
  eapply (load_loop_succeeds _ _ _ _ [] [] k); [|done|done|lia].
  split; [done | apply holds_initial | done].
Qed.

(** ** Dictionary files of alphabetic words, one per line *)

Lemma bytes_app s t : bytes (s +:+ t) = bytes s ++ bytes t.
Proof.
  unfold bytes. rewrite <- fmap_app. f_equal.
  induction s as [|a s IH]; [done|]. simpl. by rewrite IH.
Qed.

Lemma bytes_unlines_cons w ws :
  bytes (unlines (w :: ws)) = bytes w ++ 10 :: bytes (unlines ws).
Proof. cbn [unlines foldr]. by rewrite bytes_app. Qed.

Lemma isalpha_range c : isalpha c = true → 65 ≤ c ≤ 90 ∨ 97 ≤ c ≤ 122.
Proof. unfold isalpha, isupper, islower. lia. Qed.

Lemma isalpha_key c : isalpha c = true → 0 ≤ key c < CHARS.
Proof.
  intros H%isalpha_range. unfold key, tolower, isupper, CHARS.
  destruct ((65 <=? c) && (c <=? 90)) eqn:E; lia.
Qed.

Lemma isalpha_to_char b : isalpha b = true → to_char b = b.
Proof. intros H%isalpha_range. unfold to_char. destruct (128 <=? b) eqn:E; lia. Qed.

Lemma isalpha_readable b : isalpha b = true → readable b.
Proof.
  intros H. right. right. rewrite (isalpha_to_char _ H). by apply isalpha_key.
Qed.

Lemma scan_letters w : ∀ cur rest,
  Forall (λ c, isalpha c = true) w →
  scan cur (w ++ rest) = scan (cur ++ (key <$> (to_char <$> w))) rest.
Proof.
  induction w as [|b w IH]; intros cur rest Hw.
  - simpl. by rewrite app_nil_r.
  - apply Forall_cons in Hw as [Hb Hw]. cbn [app scan fmap list_fmap].
    rewrite (isalpha_to_char _ Hb).
    pose proof (isalpha_key _ Hb) as Hk. pose proof (isalpha_range _ Hb).
    assert ((b =? EOF) = false) as -> by (unfold EOF; lia).
    assert ((tolower b =? 10) = false) as -> by (unfold key, CHARS in Hk; lia).
    rewrite IH by done. by rewrite <- app_assoc.
Qed.

Lemma scan_unlines ws :
  Forall alphabetic ws →
  scan [] (bytes (unlines ws)) = (path_of <$> ws, []).
Proof.
  induction ws as [|w ws IH]; intros Hws; [done|].
  apply Forall_cons in Hws as [Hw Hws].
  rewrite bytes_unlines_cons, scan_letters by done.
  cbn [scan]. change (to_char 10 =? EOF) with false.
  change (tolower (to_char 10) =? 10) with true. cbv iota.
  rewrite IH by done. done.
Qed.

Lemma entries_unlines ws :
  Forall alphabetic ws → entries (unlines ws) = path_of <$> ws.
Proof. intros H. unfold entries. by rewrite scan_unlines. Qed.

(** A file whose last line may lack its newline: the words [ws], each on a
    line, then the unfinished word [last]. *)
Lemma scan_unlines_last ws last :
  Forall alphabetic ws →
  alphabetic last →
  scan [] (bytes (unlines ws +:+ last)) = (path_of <$> ws, path_of last).
Proof.
  intros Hws Hlast. induction ws as [|w ws IH].
  - cbn [unlines foldr]. rewrite <- (app_nil_r (bytes _)).
    by rewrite scan_letters.
  - apply Forall_cons in Hws as [Hw Hws].
    rewrite bytes_app, bytes_unlines_cons, <- app_assoc. cbn [app].
    rewrite <- bytes_app, scan_letters by done.
    cbn [scan]. change (to_char 10 =? EOF) with false.
    change (tolower (to_char 10) =? 10) with true. cbv iota.
    by rewrite IH.
Qed.

Lemma readable_unlines ws :
  Forall alphabetic ws → Forall readable (bytes (unlines ws)).
Proof.
  induction ws as [|w ws IH]; intros Hws; [constructor|].
  apply Forall_cons in Hws as [Hw Hws]. rewrite bytes_unlines_cons.
  apply Forall_app. split.
  - eapply Forall_impl; [apply Hw|]. apply isalpha_readable.
  - constructor; [|by apply IH]. right. by left.
Qed.

(** ** Walking with the program's lookup and paths in the heap *)

Lemma walk_reach m w : ∀ a b,
  reach (heap m) a (key <$> w) = Some b → walk m (Some a) w = Ok (Some b).
Proof.
  induction w as [|c w IH]; intros a b; cbn [fmap list_fmap reach walk].
  - by intros [= <-].
  - destruct (child_of (heap m) a (key c)) as [a1|] eqn:E; [|done].
    cbn [mbind option_bind]. intros Hw.
    apply child_of_Some in E as (n & Hn & Hk & Hc).
    erewrite (proj2 (advance_Ok _ _ _ _)) by eauto 10.
    rewrite bind_of_Ok. by apply IH.
Qed.

Lemma walk_None m w : walk m None w = Ok None.
Proof. by destruct w. Qed.

Lemma reach_walk m w : ∀ a b,
  walk m (Some a) w = Ok (Some b) → reach (heap m) a (key <$> w) = Some b.
Proof.
  induction w as [|c w IH]; intros a b; cbn [fmap list_fmap reach walk].
  - by intros [= <-].
  - intros H. inv_bind H. apply advance_child_of in E.
    destruct x as [a1|]; [|by rewrite walk_None in H].
    rewrite E. cbn [mbind option_bind]. by apply IH.
Qed.

Lemma walk_app m w v : ∀ p,
  walk m p (w ++ v) = walk m p w ≫= λ q, walk m q v.
Proof.
  induction w as [|c w IH]; intros p; [done|]. cbn [app walk].
  destruct p as [a|]; [|by rewrite bind_of_Ok, walk_None].
  destruct (advance m (Some a) (key c)) as [q|f]; [|done].
  rewrite !bind_of_Ok. apply IH.
Qed.

(** The first character at which a path leaves the trie. *)
Lemma reach_diverges h w : ∀ a,
  reach h a (key <$> w) = None →
  ∃ u c v b, w = u ++ c :: v ∧ reach h a (key <$> u) = Some b ∧
             child_of h b (key c) = None.
Proof.
  induction w as [|c w IH]; intros a; cbn [fmap list_fmap reach]; [done|].
  destruct (child_of h a (key c)) as [a1|] eqn:E; cbn [mbind option_bind].
  - intros (u & c' & v & b & -> & Hu & Hb)%IH.
    exists (c :: u), c', v, b. cbn [fmap list_fmap reach].
    rewrite E. by cbn [mbind option_bind].
  - intros _. by exists [], c, w, a.
Qed.

(** In a trie, a lookup in a slot that exists is an empty slot or a child. *)
Lemma advance_in_trie m r p a index :
  trie (heap m) r →
  reach (heap m) r p = Some a →
  0 ≤ index < CHARS →
  advance m (Some a) index = Ok (child_of (heap m) a index).
Proof.
  intros T Hp Hi.
  destruct (reach_allocated T _ _ Hp) as [n Hn].
  pose proof (trie_arity _ _ T _ _ Hn) as Hlen.
  destruct (lookup_lt_is_Some_2 (children n) (Z.to_nat index)) as [ch Hch];
    [unfold CHARS in *; lia|].
  assert (advance m (Some a) index = Ok ch) as E by (apply advance_Ok; eauto 10).
  by rewrite E, (advance_child_of _ _ _ _ E).
Qed.

(** ** The trie after [load] *)

(** C2: after a successful [load] of a file of alphabetic words, one per
    line and each ended by a newline, the heap is a tree below the root, and
    walking it from the root along the characters of any word of the file
    ends, at the last character, at a node whose [is_word] flag is set: the
    node at the end of the path of slots the word spells.  The tree is the
    one built from the file and nothing more: a string walks to a node
    exactly when it is empty or begins a word of the file, up to the case of
    the letters, and the node a string walks to is flagged exactly when the
    string is a word of the file, up to the case of the letters.  And [load]
    of such a file does succeed when [malloc] has a block for the root and
    for every character. *)
Theorem load_marks_every_word :
  (∀ ws sup m,
     Forall alphabetic ws →
     load (Some (unlines ws)) (boot sup) = Ok (true, m) →
     ∃ r, root m = Some r ∧ trie (heap m) r ∧
       (∀ W, W ∈ ws →
          ∃ a n, walk m (root m) (chars W) = Ok (Some a) ∧
                 reach (heap m) r (path_of W) = Some a ∧
                 heap m !! a = Some n ∧ is_word n = true) ∧
       (∀ w, (∃ a, walk m (root m) w = Ok (Some a)) ↔
             w = [] ∨ ∃ W, W ∈ ws ∧ (key <$> w) `prefix_of` path_of W) ∧
       (∀ w a n,
          walk m (root m) w = Ok (Some a) →
          heap m !! a = Some n →
          (is_word n = true ↔ ∃ W, W ∈ ws ∧ key <$> w = path_of W))) ∧
  (∀ ws k,
     Forall alphabetic ws →
     (length (bytes (unlines ws)) < k)%nat →
     ∃ m, load (Some (unlines ws)) (boot (replicate k true)) = Ok (true, m)).
Proof.
  split.
  - intros ws sup m Hws (r & Hr & _ & H)%load_holds.
    rewrite entries_unlines, scan_unlines in H by done. cbn [snd] in H.
    exists r. rewrite Hr. split; [done|]. split; [apply H|].
    split; [|split].
    + intros W HW.
      assert (path_of W ∈ path_of <$> ws) as Hin by (by apply list_elem_of_fmap_2).
      assert (is_Some (reach (heap m) r (path_of W))) as [a Ha].
      { apply (holds_paths _ _ _ _ H). right. eauto. }
      destruct (reach_allocated (holds_trie _ _ _ _ H) _ _ Ha) as [n Hn].
      exists a, n. split; [by apply walk_reach|]. split; [done|]. split; [done|].
      by apply (holds_flags _ _ _ _ H _ _ _ Ha Hn).
    + intros w. split.
      * intros [a Ha%reach_walk].
        assert (is_Some (reach (heap m) r (key <$> w))) as Hs by eauto.
        apply (holds_paths _ _ _ _ H) in Hs as [Hs|(p & Hp & Hs)].
        -- left. apply prefix_nil_inv in Hs. by destruct w.
        -- right. apply list_elem_of_fmap in Hp as (W & -> & HW). eauto.
      * intros [->|(W & HW & Hpre)]; [by exists r|].
        assert (is_Some (reach (heap m) r (key <$> w))) as [a Ha].
        { apply (holds_paths _ _ _ _ H). right. exists (path_of W).
          split; [by apply list_elem_of_fmap_2 | done]. }
        exists a. by apply walk_reach.
    + intros w a n Ha%reach_walk Hn.
      rewrite (holds_flags _ _ _ _ H _ _ _ Ha Hn), list_elem_of_fmap.
      split; intros (W & ? & ?); eauto.
  - intros ws k Hws Hk. apply load_succeeds; [by apply readable_unlines | done].
Qed.

Lemma load_marks_every_word_witness :
  ∃ r, root (loaded_from ["cat"; "Cats"; "car"] 8) = Some r ∧
    trie (heap (loaded_from ["cat"; "Cats"; "car"] 8)) r ∧
    (∀ W, W ∈ ["cat"; "Cats"; "car"] →
       ∃ a n, walk (loaded_from ["cat"; "Cats"; "car"] 8)
                   (root (loaded_from ["cat"; "Cats"; "car"] 8)) (chars W)
              = Ok (Some a) ∧
              reach (heap (loaded_from ["cat"; "Cats"; "car"] 8)) r (path_of W)
              = Some a ∧
              heap (loaded_from ["cat"; "Cats"; "car"] 8) !! a = Some n ∧
              is_word n = true) ∧
    (∀ w, (∃ a, walk (loaded_from ["cat"; "Cats"; "car"] 8)
                     (root (loaded_from ["cat"; "Cats"; "car"] 8)) w
                = Ok (Some a)) ↔
          w = [] ∨ ∃ W, W ∈ ["cat"; "Cats"; "car"] ∧
                        (key <$> w) `prefix_of` path_of W) ∧
    (∀ w a n,
       walk (loaded_from ["cat"; "Cats"; "car"] 8)
            (root (loaded_from ["cat"; "Cats"; "car"] 8)) w = Ok (Some a) →
       heap (loaded_from ["cat"; "Cats"; "car"] 8) !! a = Some n →
       (is_word n = true ↔
        ∃ W, W ∈ ["cat"; "Cats"; "car"] ∧ key <$> w = path_of W)).
Proof.
  destruct load_marks_every_word as [H _].
  apply (H ["cat"; "Cats"; "car"] (replicate 8 true)).
  - repeat constructor.
  - vm_compute. reflexivity.
Defined.

(** C3: in the trie of a loaded file of alphabetic words, one per line (the
    last line with or without its newline), at the node reached by matching
    a fragment, the lookup for a letter returns a child exactly when some
    word of the file begins with the fragment followed by that letter, and
    NULL otherwise; so a non-empty string of letters that begins no word of
    the file walks to NULL, the lookup returning NULL at its first character
    after which no word of the file continues. *)
Theorem advance_iff_prefix (ws : list string) (last : string)
    (sup : list bool) (m : memory) :
  Forall alphabetic ws →
  alphabetic last →
  load (Some (unlines ws +:+ last)) (boot sup) = Ok (true, m) →
  (∀ f cursor c,
     walk m (root m) f = Ok (Some cursor) →
     isalpha c = true →
     ∃ next, advance m (Some cursor) (key c) = Ok next ∧
             (is_Some next ↔
              ∃ W, W ∈ ws ++ [last] ∧ key <$> (f ++ [c]) `prefix_of` path_of W)) ∧
  (∀ P,
     P ≠ [] →
     Forall (λ c, isalpha c = true) P →
     (¬ ∃ W, W ∈ ws ++ [last] ∧ key <$> P `prefix_of` path_of W) →
     ∃ Q c R cursor,
       P = Q ++ c :: R ∧
       walk m (root m) Q = Ok (Some cursor) ∧
       advance m (Some cursor) (key c) = Ok None ∧
       walk m (root m) P = Ok None ∧
       (Q = [] ∨ ∃ W, W ∈ ws ++ [last] ∧ key <$> Q `prefix_of` path_of W) ∧
       ¬ ∃ W, W ∈ ws ++ [last] ∧ key <$> (Q ++ [c]) `prefix_of` path_of W).
Proof.
  intros Hws Hlast (r & Hr & _ & H)%load_holds.
  unfold entries in H. rewrite scan_unlines_last in H by done. cbn [fst snd] in H.
  pose proof (holds_trie _ _ _ _ H) as T. rewrite Hr.
  assert (∀ p, is_Some (reach (heap m) r p) ↔
               ∃ W, W ∈ ws ++ [last] ∧ p `prefix_of` path_of W) as Hpaths.
  { intros p. rewrite (holds_paths _ _ _ _ H). split.
    - intros [Hp|(w & Hw & Hp)].
      + exists last. split; [|done]. apply elem_of_app. right. by left.
      + apply list_elem_of_fmap in Hw as (W & -> & HW).
        exists W. split; [|done]. apply elem_of_app. by left.
    - intros (W & [HW|HW]%elem_of_app & Hp).
      + right. exists (path_of W). split; [by apply list_elem_of_fmap_2 | done].
      + apply list_elem_of_singleton in HW as ->. by left. }
  split.
  - intros f cursor c Hf%reach_walk Hc.
    rewrite (advance_in_trie _ _ _ _ _ T Hf (isalpha_key _ Hc)).
    eexists. split; [done|].
    by rewrite <- (reach_snoc _ _ _ _ _ Hf), Hpaths, fmap_app.
  - intros P Hne HP Hno.
    assert (reach (heap m) r (key <$> P) = None) as Hnone.
    { apply eq_None_not_Some. by rewrite Hpaths. }
    apply reach_diverges in Hnone as (Q & c & R & b & -> & HQ & Hb).
    assert (isalpha c = true) as Hc.
    { apply Forall_app in HP as [_ HP]. by apply Forall_cons in HP as [? _]. }
    pose proof (advance_in_trie _ _ _ _ _ T HQ (isalpha_key _ Hc)) as Hadv.
    rewrite Hb in Hadv.
    exists Q, c, R, b. split; [done|].
    split; [by apply walk_reach|]. split; [done|]. split; [|split].
    + rewrite walk_app, (walk_reach _ _ _ _ HQ), bind_of_Ok.
      cbn [walk]. by rewrite Hadv, bind_of_Ok, walk_None.
    + right. apply Hpaths. eauto.
    + intros Hex%Hpaths. rewrite fmap_app in Hex. cbn [fmap list_fmap] in Hex.
      rewrite (reach_snoc _ _ _ _ _ HQ), Hb in Hex. by destruct Hex.
Qed.

Lemma advance_iff_prefix_witness :
  (∃ next, advance (loaded_from ["cat"; "cats"; "car"] 8) (Some 2%nat) (key 116)
           = Ok next ∧
           (is_Some next ↔
            ∃ W, W ∈ ["cat"; "cats"; "car"] ++ [""] ∧
                 key <$> (chars "ca" ++ [116]) `prefix_of` path_of W)) ∧
  ∃ Q c R cursor,
    chars "cab" = Q ++ c :: R ∧
    walk (loaded_from ["cat"; "cats"; "car"] 8)
         (root (loaded_from ["cat"; "cats"; "car"] 8)) Q = Ok (Some cursor) ∧
    advance (loaded_from ["cat"; "cats"; "car"] 8) (Some cursor) (key c) = Ok None.
Proof.
  destruct (advance_iff_prefix ["cat"; "cats"; "car"] "" (replicate 8 true)
              (loaded_from ["cat"; "cats"; "car"] 8)) as [H1 H2].
  - repeat constructor.
  - constructor.
  - vm_compute. reflexivity.
  - split.
    + apply (H1 (chars "ca") 2%nat 116); [vm_compute; reflexivity | reflexivity].
    + destruct (H2 (chars "cab")) as (Q & c & R & cursor & HP & HQ & Hc & _).
      * discriminate.
      * repeat constructor.
      * intros (W & HW & Hp).
        repeat (apply elem_of_cons in HW as [->|HW]);
          [..|by apply elem_of_nil in HW];
          vm_compute in Hp; destruct Hp as [k Hk]; discriminate.
      * exists Q, c, R, cursor. auto.
Defined.

(** C8: [load] of an empty file succeeds when the root can be allocated and
    leaves a root whose 26 slots are all empty; and after any successful
    [load] the root carries the [is_word] flag exactly when the file holds an
    empty word, so the flag is clear when it holds none. *)
Theorem empty_source_and_root_flag :
  (∀ sup, ∃ m r,
     load (Some "") (boot (true :: sup)) = Ok (true, m) ∧
     root m = Some r ∧
     heap m = {[r := Node false (replicate (Z.to_nat CHARS) None)]} ∧
     ∀ i, 0 ≤ i < CHARS → advance m (root m) i = Ok None) ∧
  (∀ dict sup m,
     load (Some dict) (boot sup) = Ok (true, m) →
     ∃ r n, root m = Some r ∧ heap m !! r = Some n ∧
            (is_word n = true ↔ [] ∈ entries dict)) ∧
  (∀ ws sup m,
     Forall alphabetic ws →
     "" ∉ ws →
     load (Some (unlines ws)) (boot sup) = Ok (true, m) →
     ∃ r n, root m = Some r ∧ heap m !! r = Some n ∧ is_word n = false).
Proof.
  assert (∀ dict sup m,
     load (Some dict) (boot sup) = Ok (true, m) →
     ∃ r n, root m = Some r ∧ heap m !! r = Some n ∧
            (is_word n = true ↔ [] ∈ entries dict)) as Hflag.
  { intros dict sup m (r & Hr & _ & H)%load_holds.
    destruct (trie_root _ _ (holds_trie _ _ _ _ H)) as [n Hn].
    exists r, n. split; [done|]. split; [done|].
    by apply (holds_flags _ _ _ _ H [] r n). }
  split; [|split; [done|]].
  - intros sup. rewrite load_unfold. cbv zeta. cbn [bytes load_loop].
    eexists _, _. split; [reflexivity|]. cbn [root heap].
    split; [done|]. split; [done|]. intros i Hi.
    apply advance_Ok. eexists _, _. split; [done|]. cbn [heap].
    split; [apply lookup_singleton_eq|]. split; [done|]. cbn [children].
    apply lookup_replicate. unfold CHARS in *. split; [done | lia].
  - intros ws sup m Hws Hno (r & n & Hr & Hn & Hw)%Hflag.
    exists r, n. split; [done|]. split; [done|].
    apply not_true_is_false. rewrite Hw, entries_unlines by done.
    intros (W & HW & Hin)%list_elem_of_fmap.
    destruct W as [|a W]; [done|]. discriminate.
Qed.

Lemma empty_source_and_root_flag_witness :
  ∃ r n, root (loaded_from ["it"; "dog"] 8) = Some r ∧
         heap (loaded_from ["it"; "dog"] 8) !! r = Some n ∧ is_word n = false.
Proof.
  destruct empty_source_and_root_flag as (_ & _ & H).
  apply (H ["it"; "dog"] (replicate 8 true)).
  - repeat constructor.
  - intros Hin. repeat (apply elem_of_cons in Hin as [Hin|Hin]; [discriminate|]).
    by apply elem_of_nil in Hin.
  - vm_compute. reflexivity.
Defined.

(** ** Teardown *)

Lemma freeNode_unfold fuel a m :
  freeNode (S fuel) (Some a) m = for_each slots (free_slot fuel (Some a)) m.
Proof. reflexivity. Qed.

Lemma sweep_iff (P Q : addr → Prop) m m' :
  (∀ x, P x ↔ Q x) → sweep P m m' → sweep Q m m'.
Proof.
  intros E (Hr & Hs & Hin & Hout & l & Hl & Hnd & Hmem).
  split; [done|]. split; [done|]. split; [|split].
  - intros x Hx. apply Hin, E, Hx.
  - intros x Hx. apply Hout. by rewrite E.
  - exists l. split; [done|]. split; [done|]. intros x. by rewrite Hmem.
Qed.

Lemma below_lt_all h a x : below_lt h a CHARS x ↔ below h a x.
Proof.
  split.
  - intros (j & p & _ & Hp). by exists (j :: p).
  - intros (p & Hne & Hp). destruct p as [|j p]; [done|].
    exists j, p. split; [|done]. cbn [reach] in Hp.
    destruct (child_of h a j) as [b|] eqn:E; [|done].
    by apply child_of_Some in E as (_ & _ & ? & _).
Qed.

Lemma below_lt_0 h a x : ¬ below_lt h a 0 x.
Proof. intros (j & p & ? & _). lia. Qed.

Lemma reach_cons h a i b p : child_of h a i = Some b → reach h a (i :: p) = reach h b p.
Proof. intros E. cbn [reach]. by rewrite E. Qed.

Lemma subtree_child h a d i b :
  subtree h a (S d) → child_of h a i = Some b → subtree h b d.
Proof.
  intros [Ha Hn Hi Hd] Hb. split.
  - intros p x Hp. apply (Ha (i :: p)). by rewrite (reach_cons _ _ _ _ _ Hb).
  - intros p x n Hp. apply (Hn (i :: p)). by rewrite (reach_cons _ _ _ _ _ Hb).
  - intros p q x Hp Hq.
    assert (i :: p = i :: q) as E; [|by injection E].
    apply (Hi _ _ x); by rewrite (reach_cons _ _ _ _ _ Hb).
  - intros p x Hp. apply Nat.succ_lt_mono. apply (Hd (i :: p) x).
    by rewrite (reach_cons _ _ _ _ _ Hb).
Qed.

Lemma subtree_agree h h' a d :
  (∀ p x, reach h a p = Some x → h' !! x = h !! x) →
  subtree h a d → subtree h' a d.
Proof.
  intros Hag [Ha Hn Hi Hd].
  assert (∀ p, reach h' a p = reach h a p) as E
    by (intros p; by apply reach_agree).
  split.
  - intros p x. rewrite E. intros Hp. rewrite (Hag _ _ Hp). by eapply Ha.
  - intros p x n. rewrite E. intros Hp. rewrite (Hag _ _ Hp). by eapply Hn.
  - intros p q x. rewrite !E. apply Hi.
  - intros p x. rewrite E. apply Hd.
Qed.

Lemma subtree_mono h a d d' : (d ≤ d')%nat → subtree h a d → subtree h a d'.
Proof.
  intros Hle [Ha Hn Hi Hd]. split; try done.
  intros p x Hp. specialize (Hd p x Hp). lia.
Qed.

(** One slot of the loop of [freeNode]: the subtree in slot [i] goes, the
    rest of the heap stays. *)
Lemma free_slot_sweeps f m0 a i m :
  (∀ m a, subtree (heap m) a f →
          ∃ m', freeNode f (Some a) m = Ok m' ∧ sweep (below (heap m) a) m m') →
  subtree (heap m0) a (S f) →
  0 ≤ i < CHARS →
  sweep (below_lt (heap m0) a i) m0 m →
  ∃ m', free_slot f (Some a) i m = Ok m' ∧
        sweep (below_lt (heap m0) a (i + 1)) m0 m'.
Proof.
  intros IH S Hi (Hr & Hs & Hin & Hout & l & Hl & Hnd & Hmem).
  set (h := heap m0) in *.
  assert (∀ j p q x, reach h a (j :: p) = Some x → reach h a q = Some x →
                     q = j :: p) as Hinj.
  { intros j p q x Hp Hq. by apply (subtree_inj _ _ _ S _ _ x). }
  destruct (subtree_alloc _ _ _ S [] a eq_refl) as [n Hn].
  pose proof (subtree_arity _ _ _ S [] a n eq_refl Hn) as Hlen.
  assert (¬ below_lt h a i a) as Hself.
  { intros (j & p & _ & Hp). by specialize (Hinj _ _ [] _ Hp eq_refl). }
  assert (heap m !! a = Some n) as Hna by (rewrite Hout; done).
  destruct (lookup_lt_is_Some_2 (children n) (Z.to_nat i)) as [c Hc];
    [unfold CHARS in *; lia|].
  assert (advance m (Some a) i = Ok c) as Hadv by (apply advance_Ok; eauto 10).
  unfold free_slot. rewrite Hadv, bind_of_Ok.
  destruct c as [b|].
  - assert (child_of h a i = Some b) as Hb by (apply child_of_Some; eauto).
    assert (∀ q y, reach h b q = Some y → ¬ below_lt h a i y) as Hfar.
    { intros q y Hq (j & p & Hj & Hp).
      rewrite <- (reach_cons _ _ _ _ _ Hb) in Hq.
      specialize (Hinj _ _ _ _ Hp Hq). injection Hinj as -> _. lia. }
    assert (∀ q, reach (heap m) b q = reach h b q) as Hsame.
    { intros q. apply reach_agree. intros q' y Hq'. apply Hout. by eapply Hfar. }
    assert (subtree (heap m) b f) as Sb.
    { apply (subtree_agree h); [|by eapply subtree_child].
      intros q y Hq. apply Hout. by eapply Hfar. }
    destruct (IH m b Sb) as (m1 & -> & Hr1 & Hs1 & Hin1 & Hout1 & l1 & Hl1 & Hnd1 & Hmem1).
    rewrite bind_of_Ok.
    assert (∀ x, below (heap m) b x ↔ below h b x) as Hbel.
    { intros x. unfold below. by setoid_rewrite Hsame. }
    assert (∀ x, below h b x → x ≠ a ∧ x ≠ b ∧ ¬ below_lt h a i x) as Hsub.
    { intros x (q & Hne & Hq). split; [|split].
      - intros ->. rewrite <- (reach_cons _ _ _ _ _ Hb) in Hq.
        by specialize (Hinj _ _ [] _ Hq eq_refl).
      - intros ->. rewrite <- (reach_cons _ _ _ _ _ Hb) in Hq.
        assert (reach h a [i] = Some b) as Hib
          by (by rewrite (reach_cons _ _ _ _ _ Hb)).
        specialize (Hinj _ _ _ _ Hq Hib). by injection Hinj as <-.
      - by eapply Hfar. }
    assert (¬ below h b a) as Hab by (intros Hx; by apply Hsub in Hx as (? & _)).
    assert (¬ below h b b) as Hbb by (intros Hx; by apply Hsub in Hx as (_ & ? & _)).
    assert (¬ below_lt h a i b) as Hib by (by apply (Hfar [] b)).
    assert (heap m1 !! a = Some n) as Hna1.
    { rewrite Hout1; [done|]. by rewrite Hbel. }
    assert (advance m1 (Some a) i = Ok (Some b)) as ->
      by (apply advance_Ok; eauto 10).
    rewrite bind_of_Ok.
    destruct (subtree_alloc _ _ _ S [i] b) as [nb Hnb];
      [by rewrite (reach_cons _ _ _ _ _ Hb)|].
    assert (heap m1 !! b = Some nb) as Hnb1.
    { rewrite Hout1 by (by rewrite Hbel). by rewrite Hout. }
    unfold free. rewrite Hnb1. eexists. split; [done|].
    assert (∀ x, below_lt h a (i + 1) x ↔
                 below_lt h a i x ∨ x = b ∨ below h b x) as Hsplit.
    { intros x. split.
      - intros (j & p & Hj & Hp). destruct (decide (j = i)) as [->|Hne].
        + right. rewrite (reach_cons _ _ _ _ _ Hb) in Hp.
          destruct p as [|k p]; [left; by injection Hp|right].
          by exists (k :: p).
        + left. exists j, p. split; [lia | done].
      - intros [(j & p & Hj & Hp)|[->|(q & Hne & Hq)]].
        + exists j, p. split; [lia | done].
        + exists i, []. split; [lia|]. by rewrite (reach_cons _ _ _ _ _ Hb).
        + exists i, q. split; [lia|]. by rewrite (reach_cons _ _ _ _ _ Hb). }
    split; [by rewrite <- Hr, <- Hr1|]. split; [by rewrite <- Hs, <- Hs1|].
    cbn [heap released]. split; [|split].
    + intros x [Hx|[->|Hx]]%Hsplit.
      * destruct (decide (x = b)) as [->|?]; [done|].
        rewrite lookup_delete_ne by done.
        rewrite Hout1; [by apply Hin|].
        rewrite Hbel. intros Hbx. by apply Hsub in Hbx as (_ & _ & ?).
      * apply lookup_delete_eq.
      * rewrite lookup_delete_ne
          by (apply Hsub in Hx as (_ & ? & _); congruence).
        apply Hin1. by rewrite Hbel.
    + intros x Hx. rewrite Hsplit in Hx.
      rewrite lookup_delete_ne by (intros ->; apply Hx; auto).
      rewrite Hout1 by (rewrite Hbel; intros ?; apply Hx; auto).
      apply Hout. intros ?. apply Hx. auto.
    + exists (l ++ l1 ++ [b]). split; [by rewrite Hl1, Hl, <- !app_assoc|].
      split.
      * apply NoDup_app. split; [done|]. split.
        -- intros x Hx%Hmem. rewrite elem_of_app, list_elem_of_singleton.
           intros [Hx1%Hmem1%Hbel| ->]; [|done].
           by apply Hsub in Hx1 as (_ & _ & ?).
        -- apply NoDup_app. split; [done|]. split; [|apply NoDup_singleton].
           intros x Hx%Hmem1%Hbel ->%list_elem_of_singleton. done.
      * intros x. rewrite Hsplit, !elem_of_app, list_elem_of_singleton.
        rewrite Hmem, Hmem1, Hbel. tauto.
  - rewrite bind_of_Ok, Hadv, bind_of_Ok. cbn [free]. eexists. split; [done|].
    assert (child_of h a i = None) as Hb.
    { unfold child_of. rewrite Hn. cbn [mbind option_bind].
      rewrite bool_decide_eq_true_2 by done. by rewrite Hc. }
    apply (sweep_iff (below_lt h a i)).
    + intros x. split.
      * intros (j & p & Hj & Hp). exists j, p. split; [lia | done].
      * intros (j & p & Hj & Hp). exists j, p. split; [|done].
        destruct (decide (j = i)) as [->|?]; [|lia].
        cbn [reach] in Hp. by rewrite Hb in Hp.
    + split; [done|]. split; [done|]. split; [done|]. split; [done|]. eauto.
Qed.

Lemma free_loop_sweeps f m0 a :
  (∀ m a, subtree (heap m) a f →
          ∃ m', freeNode f (Some a) m = Ok m' ∧ sweep (below (heap m) a) m m') →
  subtree (heap m0) a (S f) →
  ∀ j k m,
    (k + j = Z.to_nat CHARS)%nat →
    sweep (below_lt (heap m0) a (Z.of_nat k)) m0 m →
    ∃ m', for_each (Z.of_nat <$> seq k j) (free_slot f (Some a)) m = Ok m' ∧
          sweep (below_lt (heap m0) a CHARS) m0 m'.
Proof.
  intros IH S. induction j as [|j IHj]; intros k m Hk Hsw.
  - exists m. split; [done|]. rewrite Nat.add_0_r in Hk. subst k.
    by rewrite Z2Nat.id in Hsw by done.
  - cbn [seq fmap list_fmap for_each].
    destruct (free_slot_sweeps f m0 a (Z.of_nat k) m IH S) as (m1 & -> & Hsw1);
      [unfold CHARS in *; lia | done |].
    rewrite bind_of_Ok. apply (IHj (Datatypes.S k)); [lia|].
    by rewrite Nat2Z.inj_succ.
Qed.

(** [freeNode] on the root of a tree of depth less than [fuel] frees every
    node strictly below it, once, and leaves the rest of the heap. *)
Lemma freeNode_sweeps fuel : ∀ m a,
  subtree (heap m) a fuel →
  ∃ m', freeNode fuel (Some a) m = Ok m' ∧ sweep (below (heap m) a) m m'.
Proof.
  induction fuel as [|f IH]; intros m a S.
  - pose proof (subtree_depth _ _ _ S [] a eq_refl) as Hd. simpl in Hd. lia.
  - rewrite freeNode_unfold. unfold slots.
    destruct (free_loop_sweeps f m a IH S (Z.to_nat CHARS) 0%nat m)
      as (m' & -> & Hsw); [done | |].
    + split; [done|]. split; [done|]. split; [|split; [done|]].
      * intros x Hx. by apply below_lt_0 in Hx.
      * exists []. rewrite app_nil_r. split; [done|]. split; [constructor|].
        intros x. split; [by intros ?%elem_of_nil | by intros ?%below_lt_0].
    + exists m'. split; [done|]. eapply sweep_iff; [|done]. apply below_lt_all.
Qed.

(** No path of a trie is as long as the trie has nodes. *)
Lemma trie_depth h r p x :
  trie h r → reach h r p = Some x → (length p < size h)%nat.
Proof.
  intros T Hp.
  set (l := (λ k, default r (reach h r (take k p))) <$> seq 0 (S (length p))).
  assert (∀ k, is_Some (reach h r (take k p))) as Hdef.
  { intros k. apply (reach_prefix _ _ _ (drop k p)). rewrite take_drop. eauto. }
  assert (∀ i y, l !! i = Some y →
                 (i ≤ length p)%nat ∧ reach h r (take i p) = Some y) as Hl.
  { intros i y (k & -> & [-> ?]%lookup_seq)%list_lookup_fmap_Some.
    split; [lia|]. simpl. by destruct (Hdef i) as [y ->]. }
  assert (NoDup l) as Hnd.
  { apply NoDup_alt. intros i j y [Hi Hyi]%Hl [Hj Hyj]%Hl.
    pose proof (trie_inj _ _ T _ _ _ Hyi Hyj) as E.
    apply (f_equal length) in E. rewrite !length_take in E. lia. }
  assert (l ⊆+ elements (dom h)) as Hsub.
  { apply NoDup_submseteq; [done|]. intros y (i & Hi)%list_elem_of_lookup.
    apply Hl in Hi as [_ Hy]. apply elem_of_elements, elem_of_dom.
    by eapply reach_allocated. }
  apply submseteq_length in Hsub.
  assert (length l = S (length p)) as El
    by (unfold l; by rewrite length_fmap, length_seq).
  assert (length (elements (dom h)) = size h) as Es by apply size_dom.
  lia.
Qed.

Lemma trie_subtree h r : trie h r → subtree h r (size h).
Proof.
  intros T. split.
  - intros p x. by apply (reach_allocated T).
  - intros p x n _. by apply (trie_arity _ _ T).
  - by apply trie_inj.
  - intros p x. by apply trie_depth.
Qed.

(** Teardown of any trie: [freeNode] leaves the root alone in the heap,
    [unload] leaves nothing, and the blocks freed are the nodes of the trie,
    each once. *)
Lemma unload_trie m r fuel :
  root m = Some r →
  trie (heap m) r →
  (size (heap m) ≤ fuel)%nat →
  ∃ n m1 m2,
    heap m !! r = Some n ∧
    freeNode fuel (root m) m = Ok m1 ∧ heap m1 = {[r := n]} ∧
    (∃ l, released m1 = released m ++ l ∧ NoDup l ∧
          ∀ x, x ∈ l ↔ below (heap m) r x) ∧
    unload fuel m = Ok (true, m2) ∧ heap m2 = ∅ ∧
    ∃ l, released m2 = released m ++ l ∧ l ≡ₚ elements (dom (heap m)).
Proof.
  intros Hr T Hfuel.
  destruct (trie_root _ _ T) as [n Hn].
  destruct (freeNode_sweeps fuel m r) as (m1 & Hfree & Hsw).
  { eapply subtree_mono; [done|]. by apply trie_subtree. }
  pose proof Hsw as (Hr1 & _ & Hin & Hout & l & Hl & Hnd & Hmem).
  assert (¬ below (heap m) r r) as Hself.
  { intros (p & Hne & Hp). apply Hne. by apply (trie_inj _ _ T p [] r). }
  assert (∀ x, x ≠ r → is_Some (heap m !! x) → below (heap m) r x) as Hall.
  { intros x Hx [p Hp]%(trie_surj _ _ T). exists p. split; [|done].
    intros ->. by injection Hp as ->. }
  assert (heap m1 = {[r := n]}) as Hm1.
  { apply map_eq. intros x. destruct (decide (x = r)) as [->|Hne].
    - by rewrite lookup_singleton_eq, Hout.
    - rewrite lookup_singleton_ne by done.
      destruct (heap m !! x) eqn:E.
      + apply Hin, Hall; [done|]. by rewrite E.
      + rewrite Hout; [done|]. intros (p & _ & Hp).
        apply (reach_allocated T) in Hp. rewrite E in Hp. by destruct Hp. }
  exists n, m1. eexists. split; [done|]. rewrite Hr. split; [done|].
  split; [done|]. split; [by exists l|].
  unfold unload. rewrite Hr, Hfree, bind_of_Ok, Hr1, Hr.
  unfold free. rewrite Hm1, lookup_singleton_eq, bind_of_Ok.
  split; [done|]. cbn [heap released]. split; [apply delete_singleton_eq|].
  exists (l ++ [r]). split; [by rewrite Hl, app_assoc|].
  apply NoDup_Permutation.
  - apply NoDup_app. split; [done|]. split; [|apply NoDup_singleton].
    intros x Hx%Hmem ->%list_elem_of_singleton. done.
  - apply NoDup_elements.
  - intros x. rewrite elem_of_app, list_elem_of_singleton, Hmem,
      elem_of_elements, elem_of_dom. split.
    + intros [(p & _ & Hp)| ->]; [by eapply reach_allocated | by rewrite Hn].
    + intros Hx. destruct (decide (x = r)); [by right | left; by apply Hall].
Qed.

(** C7: teardown of a loaded dictionary. [freeNode] on the root frees every
    node strictly below the root and leaves the root alone in the heap;
    [unload] then frees the root as well, so the heap ends empty, and the
    blocks passed to [free] are exactly the nodes of the trie, each once.
    Any fuel not less than the number of nodes is enough. *)
Theorem unload_releases_every_node (dict : string) (sup : list bool)
    (m : memory) (fuel : nat) :
  load (Some dict) (boot sup) = Ok (true, m) →
  (size (heap m) ≤ fuel)%nat →
  ∃ r n m1 m2,
    root m = Some r ∧ heap m !! r = Some n ∧
    freeNode fuel (root m) m = Ok m1 ∧
    heap m1 = {[r := n]} ∧
    NoDup (released m1) ∧ (∀ x, x ∈ released m1 ↔ below (heap m) r x) ∧
    unload fuel m = Ok (true, m2) ∧
    heap m2 = ∅ ∧
    released m2 ≡ₚ elements (dom (heap m)).
Proof.
  intros (r & Hr & Hrel & H)%load_holds Hfuel.
  destruct (unload_trie m r fuel Hr (holds_trie _ _ _ _ H) Hfuel)
    as (n & m1 & m2 & Hn & Hf & Hm1 & (l & Hl & Hnd & Hmem) & Hu & Hm2 & l2 & Hl2 & Hp).
  rewrite Hrel in Hl, Hl2. cbn [app] in Hl, Hl2.
  exists r, n, m1, m2. rewrite Hl, Hl2. auto 10.
Qed.

Lemma unload_releases_every_node_witness :
  ∃ r n m1 m2,
    root (loaded_from ["cat"; "cats"; "car"] 8) = Some r ∧
    heap (loaded_from ["cat"; "cats"; "car"] 8) !! r = Some n ∧
    freeNode 6 (root (loaded_from ["cat"; "cats"; "car"] 8))
             (loaded_from ["cat"; "cats"; "car"] 8) = Ok m1 ∧
    heap m1 = {[r := n]} ∧
    NoDup (released m1) ∧
    (∀ x, x ∈ released m1 ↔ below (heap (loaded_from ["cat"; "cats"; "car"] 8)) r x) ∧
    unload 6 (loaded_from ["cat"; "cats"; "car"] 8) = Ok (true, m2) ∧
    heap m2 = ∅ ∧
    released m2 ≡ₚ elements (dom (heap (loaded_from ["cat"; "cats"; "car"] 8))).
Proof.
  apply (unload_releases_every_node (unlines ["cat"; "cats"; "car"])
           (replicate 8 true)).
  - vm_compute. reflexivity.
  - vm_compute. repeat constructor.
Defined.

(** ** The gameplay loop *)

Lemma islower_tolower c : isalpha c = true → islower (tolower c) = true.
Proof.
  intros H%isalpha_range. unfold tolower, islower, isupper.
  destruct ((65 <=? c) && (c <=? 90)) eqn:E; lia.
Qed.

Lemma key_tolower c : key (tolower c) = key c.
Proof.
  unfold key, tolower. destruct (isupper c) eqn:E; [|by rewrite E].
  destruct (isupper (c + 32)) eqn:E'; [unfold isupper in *; lia | done].
Qed.

Lemma c_string_letters s k :
  Forall (λ c, islower c = true) s →
  (0 < k)%nat →
  c_string (s ++ replicate k 0) = Ok s.
Proof.
  intros Hs Hk. induction Hs as [|c s Hc Hs IH]; cbn [app c_string].
  - destruct k; [lia|]. done.
  - assert ((c =? 0) = false) as -> by (unfold islower in Hc; lia).
    by rewrite IH, bind_of_Ok.
Qed.

Lemma in_step_c_string m g s : in_step m g s → c_string (fragment g) = Ok s.
Proof.
  intros [Hb Hr Hl _ _]. rewrite Hb. apply c_string_letters; [done | lia].
Qed.

Lemma store_fragment m g s c :
  in_step m g s →
  store (fragment g) (letter_count g) c
  = Ok ((s ++ [c]) ++ replicate (Z.to_nat MAX_LENGTH - S (length s)) 0).
Proof.
  intros [Hb Hr _ Hc _]. unfold store. rewrite Hb, Hc.
  assert ((0 <=? Z.of_nat (length s)) && (Z.of_nat (length s) <? MAX_LENGTH) = true)
    as -> by lia.
  f_equal. rewrite Nat2Z.id, insert_app_r_alt by done.
  rewrite Nat.sub_diag, <- app_assoc. f_equal.
  destruct (Z.to_nat MAX_LENGTH - length s)%nat as [|k] eqn:E; [lia|].
  replace (Z.to_nat MAX_LENGTH - S (length s))%nat with k by lia.
  done.
Qed.

(** A character that is not a letter: [scanf] is called again. *)
Lemma turn_not_alpha N m g c :
  isalpha c = false → turn N m g c = Ok (Continue g [Prompt (curr_player g)]).
Proof. intros H. unfold turn. by rewrite H. Qed.

(** A letter without a child: nothing is assigned before [continue]. *)
Lemma turn_rejected N m g s c :
  isalpha c = true →
  advance m (letter g) (key c) = Ok None →
  c_string (fragment g) = Ok s →
  turn N m g c
  = Ok (Continue g [NoWord s (tolower c); ShowFragment s; Prompt (curr_player g)]).
Proof.
  intros Hc Ha Hs. unfold turn. rewrite Hc. cbn [negb]. fold (key c).
  by rewrite Ha, bind_of_Ok, Hs, bind_of_Ok.
Qed.

(** A letter with a child, in a state of the loop: the letter is stored and
    the cursor moves; the [break] is taken or the turn passes on. *)
Lemma turn_accepted N m g s c b n :
  in_step m g s →
  isalpha c = true →
  advance m (letter g) (key c) = Ok (Some b) →
  heap m !! b = Some n →
  turn N m g c =
    let buf := (s ++ [tolower c]) ++ replicate (Z.to_nat MAX_LENGTH - S (length s)) 0 in
    if is_word n && (MIN_LENGTH <=? letter_count g)
    then Ok (Break (Game (curr_player g) (letter_count g) buf (Some b)))
    else
      let g' := Game (Z.rem (curr_player g) N + 1) (letter_count g + 1) buf (Some b) in
      s' ← c_string buf;
      Ok (Continue g' [ShowFragment s'; Prompt (curr_player g')]).
Proof.
  intros Hin Hc Ha Hn. unfold turn. rewrite Hc. cbn [negb]. fold (key c).
  rewrite Ha, bind_of_Ok, (store_fragment _ _ _ _ Hin), bind_of_Ok.
  assert (deref m (Some b) = Ok n) as -> by (apply deref_Ok; eauto).
  by rewrite bind_of_Ok.
Qed.

(** The state of the loop after an accepted letter. *)
Lemma in_step_accepted m g s c b p lc :
  in_step m g s →
  isalpha c = true →
  advance m (letter g) (key c) = Ok (Some b) →
  (S (length s) < Z.to_nat MAX_LENGTH)%nat →
  lc = letter_count g + 1 →
  in_step m
    (Game p lc ((s ++ [tolower c]) ++ replicate (Z.to_nat MAX_LENGTH - S (length s)) 0)
          (Some b))
    (s ++ [tolower c]).
Proof.
  intros [Hb Hr Hl Hcount (a & Hla & Hw)] Hc Ha Hroom ->. split; cbn.
  - rewrite length_app. cbn [length]. do 2 f_equal. lia.
  - rewrite length_app. cbn [length]. lia.
  - apply Forall_app. split; [done|]. constructor; [|constructor].
    by apply islower_tolower.
  - rewrite length_app. cbn [length]. lia.
  - exists b. split; [done|].
    rewrite walk_app, Hw, bind_of_Ok. cbn [walk].
    by rewrite key_tolower, <- Hla, Ha, bind_of_Ok.
Qed.

(** When the loop is left, it is on a letter with a child that is a word,
    typed with at least MIN_LENGTH letters already in the fragment. *)
Lemma turn_break N m g c g' :
  turn N m g c = Ok (Break g') →
  isalpha c = true ∧ curr_player g' = curr_player g ∧
  ∃ b n, advance m (letter g) (key c) = Ok (Some b) ∧ heap m !! b = Some n ∧
         is_word n = true ∧ MIN_LENGTH ≤ letter_count g ∧ letter g' = Some b.
Proof.
  unfold turn. destruct (isalpha c); cbn [negb]; [|done]. fold (key c).
  intros H. inv_bind H. destruct x as [b|].
  - inv_bind H. inv_bind H. apply deref_Ok in E1 as (b' & [= <-] & Hn).
    destruct (is_word x0 && (MIN_LENGTH <=? letter_count g)) eqn:Ew.
    + injection H as <-. cbn. split; [done|]. split; [done|].
      exists b, x0. apply andb_true_iff in Ew as [? ?]. repeat split; auto. lia.
    + by inv_bind H.
  - by inv_bind H.
Qed.

Lemma c_string_letters_full s :
  Forall (λ c, islower c = true) s → c_string s = Stuck Unterminated.
Proof.
  intros Hs. induction Hs as [|c s Hc Hs IH]; cbn [c_string]; [done|].
  assert ((c =? 0) = false) as -> by (unfold islower in Hc; lia).
  by rewrite IH.
Qed.

(** C1: the loop is left exactly when the fragment just extended by an
    accepted letter ends at a node flagged as a word and is more than
    MIN_LENGTH = 3 letters long; the state at that point still has the
    player who typed the letter as [curr_player], who is announced as the
    loser.  With the dictionary cat, cats and three players, the game goes
    on after "cat" and ends on "cats", lost by player 1, who typed the
    fourth letter. *)
Theorem game_over_iff_long_word :
  (∀ N m g s c b n,
     in_step m g s →
     isalpha c = true →
     advance m (letter g) (key c) = Ok (Some b) →
     heap m !! b = Some n →
     walk m (root m) (s ++ [tolower c]) = Ok (Some b) ∧
     ((∃ g', turn N m g c = Ok (Break g')) ↔
      is_word n = true ∧ (Z.to_nat MIN_LENGTH < length (s ++ [tolower c]))%nat) ∧
     (∀ g', turn N m g c = Ok (Break g') →
            curr_player g' = curr_player g ∧ letter g' = Some b ∧
            fragment g' = (s ++ [tolower c])
                          ++ replicate (Z.to_nat MAX_LENGTH - S (length s)) 0)) ∧
  (∀ N m g c g',
     turn N m g c = Ok (Break g') →
     isalpha c = true ∧ ∃ b, advance m (letter g) (key c) = Ok (Some b)) ∧
  shown (main ["ghost"; "3"] (Some (unlines ["cat"; "cats"])) (replicate 8 true)
              (unlines ["c"; "a"; "t"]))
  = Ok (Blocked,
        [Banner; ShowFragment []; Prompt 1; ShowFragment (chars "c"); Prompt 2;
         ShowFragment (chars "ca"); Prompt 3; ShowFragment (chars "cat"); Prompt 1]) ∧
  shown (main ["ghost"; "3"] (Some (unlines ["cat"; "cats"])) (replicate 8 true)
              (unlines ["c"; "a"; "t"; "s"]))
  = Ok (Exit 0,
        [Banner; ShowFragment []; Prompt 1; ShowFragment (chars "c"); Prompt 2;
         ShowFragment (chars "ca"); Prompt 3; ShowFragment (chars "cat"); Prompt 1;
         Loses 1; Spelled (chars "cats")]).
Proof.
  split; [|split; [|split; vm_compute; reflexivity]].
  - intros N m g s c b n Hin Hc Ha Hn.
    pose proof Hin as [_ _ _ Hcount (a & Hla & Hw)].
    split; [|split].
    + rewrite walk_app, Hw, bind_of_Ok. cbn [walk].
      by rewrite key_tolower, <- Hla, Ha, bind_of_Ok.
    + rewrite (turn_accepted _ _ _ _ _ _ _ Hin Hc Ha Hn). cbv zeta.
      rewrite length_app, Hcount. cbn [length]. unfold MIN_LENGTH.
      destruct (is_word n); cbn [andb].
      * destruct (3 <=? Z.of_nat (length s)) eqn:E.
        -- split; [intros _; split; [done | lia] | eauto].
        -- split; [|lia]. intros [g' Hg]. by inv_bind Hg.
      * split; [|by intros [? _]]. intros [g' Hg]. by inv_bind Hg.
    + intros g'. rewrite (turn_accepted _ _ _ _ _ _ _ Hin Hc Ha Hn). cbv zeta.
      destruct (is_word n && (MIN_LENGTH <=? letter_count g)).
      * by intros [= <-].
      * intros Hg. by inv_bind Hg.
  - intros N m g c g' (Hc & _ & b & n & Ha & _)%turn_break. eauto.
Qed.

Lemma game_over_iff_long_word_witness :
  (∃ g', turn 3 (loaded_from ["cat"; "cats"] 8)
              (Game 1 3 (chars "cat" ++ replicate 42 0) (Some 3%nat)) 115
         = Ok (Break g')) ↔
  true = true ∧ (Z.to_nat MIN_LENGTH < length (chars "cat" ++ [tolower 115]))%nat.
Proof.
  destruct game_over_iff_long_word as [H _].
  destruct (H 3 (loaded_from ["cat"; "cats"] 8)
              (Game 1 3 (chars "cat" ++ replicate 42 0) (Some 3%nat))
              (chars "cat") 115 4%nat (Node true (replicate 26 None)))
    as (_ & Hiff & _).
  - split; [reflexivity | vm_compute; lia | repeat constructor | reflexivity |].
    exists 3%nat. split; [reflexivity | vm_compute; reflexivity].
  - reflexivity.
  - vm_compute. reflexivity.
  - vm_compute. reflexivity.
  - exact Hiff.
Defined.

(** C4: a letter for which the lookup returns NULL leaves the whole state of
    the loop as it was (fragment, letter count, cursor and current player),
    so the same player is asked again.  With the dictionary dog and the
    letters d, o, z the last letter is refused, the fragment stays "do" and
    player 1, who typed it, is prompted again. *)
Theorem rejected_letter_keeps_state :
  (∀ N m g s c,
     isalpha c = true →
     advance m (letter g) (key c) = Ok None →
     c_string (fragment g) = Ok s →
     turn N m g c
     = Ok (Continue g [NoWord s (tolower c); ShowFragment s; Prompt (curr_player g)]) ∧
     ∀ rest, movers N m g (c :: rest) = curr_player g :: movers N m g rest) ∧
  shown (main ["ghost"; "2"] (Some (unlines ["dog"])) (replicate 8 true)
              (unlines ["d"; "o"; "z"]))
  = Ok (Blocked,
        [Banner; ShowFragment []; Prompt 1; ShowFragment (chars "d"); Prompt 2;
         ShowFragment (chars "do"); Prompt 1;
         NoWord (chars "do") 122; ShowFragment (chars "do"); Prompt 1]).
Proof.
  split; [|vm_compute; reflexivity].
  intros N m g s c Hc Ha Hs.
  pose proof (turn_rejected N _ _ _ _ Hc Ha Hs) as Ht.
  split; [done|]. intros rest. cbn [movers]. by rewrite Ht.
Qed.

Lemma rejected_letter_keeps_state_witness :
  turn 2 (loaded_from ["dog"] 8)
       (Game 1 2 (chars "do" ++ replicate 43 0) (Some 2%nat)) 122
  = Ok (Continue (Game 1 2 (chars "do" ++ replicate 43 0) (Some 2%nat))
          [NoWord (chars "do") 122; ShowFragment (chars "do"); Prompt 1]).
Proof.
  destruct rejected_letter_keeps_state as [H _].
  apply (H 2 (loaded_from ["dog"] 8)
           (Game 1 2 (chars "do" ++ replicate 43 0) (Some 2%nat)) (chars "do") 122).
  - reflexivity.
  - vm_compute. reflexivity.
  - vm_compute. reflexivity.
Defined.

(** C5: on an accepted letter that does not end the game, the current
    player p, in 1..N, becomes (p mod N) + 1: the next player, and player 1
    after player N.  With three players and the five letters of "ghost"
    typed for the dictionary ghosts, the players who type are 1, 2, 3, 1,
    2. *)
Theorem turn_passes_round_robin :
  (∀ N m g c b g' out,
     2 ≤ N →
     1 ≤ curr_player g ≤ N →
     isalpha c = true →
     advance m (letter g) (key c) = Ok (Some b) →
     turn N m g c = Ok (Continue g' out) →
     curr_player g' = curr_player g `mod` N + 1 ∧
     1 ≤ curr_player g' ≤ N ∧
     (curr_player g < N → curr_player g' = curr_player g + 1) ∧
     (curr_player g = N → curr_player g' = 1)) ∧
  movers 3 (loaded_from ["ghosts"] 8) (start (loaded_from ["ghosts"] 8))
         (chars "ghost")
  = [1; 2; 3; 1; 2].
Proof.
  split; [|vm_compute; reflexivity].
  intros N m g c b g' out HN Hp Hc Ha. unfold turn. rewrite Hc. cbn [negb].
  fold (key c). rewrite Ha, bind_of_Ok. intros H. inv_bind H. inv_bind H.
  destruct (is_word x0 && (MIN_LENGTH <=? letter_count g)); [done|].
  inv_bind H. injection H as <- _. cbn [curr_player].
  rewrite Z.rem_mod_nonneg by lia.
  destruct (decide (curr_player g = N)) as [Hlast|Hlast].
  - rewrite Hlast, Z_mod_same_full. lia.
  - rewrite Z.mod_small by lia. lia.
Qed.

Lemma turn_passes_round_robin_witness :
  curr_player (Game 1 1 (chars "g" ++ replicate 44 0) (Some 1%nat))
  = curr_player (Game 3 0 (replicate 45 0) (Some 0%nat)) `mod` 3 + 1.
Proof.
  destruct turn_passes_round_robin as [H _].
  destruct (H 3 (loaded_from ["ghosts"] 8)
              (Game 3 0 (replicate 45 0) (Some 0%nat)) 103 1%nat
              (Game 1 1 (chars "g" ++ replicate 44 0) (Some 1%nat))
              [ShowFragment (chars "g"); Prompt 1]) as [H1 _].
  - lia.
  - cbn. lia.
  - reflexivity.
  - vm_compute. reflexivity.
  - vm_compute. reflexivity.
  - exact H1.
Defined.

(** The lookup of the loop, in a trie and in a state of the loop, is
    defined for every letter. *)
Lemma advance_in_step m r g s c :
  root m = Some r →
  trie (heap m) r →
  in_step m g s →
  isalpha c = true →
  ∃ a, letter g = Some a ∧
       reach (heap m) r (key <$> s) = Some a ∧
       advance m (letter g) (key c) = Ok (child_of (heap m) a (key c)).
Proof.
  intros Hr T [_ _ _ _ (a & Hla & Hw)] Hc. rewrite Hr in Hw.
  apply reach_walk in Hw. exists a. split; [done|]. split; [done|].
  rewrite Hla. by eapply advance_in_trie, isalpha_key.
Qed.

(** C9: the loop invariant.  Before the first iteration, and again after
    every character read, the buffer [fragment] holds a string [s] such that
    [letter] is the node that walking [s] from the root ends at and
    [letter_count] is the length of [s]; a refused letter leaves the state as
    it is, an accepted one extends [s] by the letter.  While the fragment
    leaves room in its buffer, a turn in a trie never goes wrong. *)
Theorem cursor_follows_fragment :
  (∀ m r, root m = Some r → in_step m (start m) []) ∧
  (∀ m g s,
     in_step m g s →
     c_string (fragment g) = Ok s ∧
     walk m (root m) s = Ok (letter g) ∧
     letter_count g = Z.of_nat (length s)) ∧
  (∀ N m g s c g' out,
     in_step m g s →
     turn N m g c = Ok (Continue g' out) →
     (g' = g ∧ (isalpha c = false ∨ advance m (letter g) (key c) = Ok None)) ∨
     (in_step m g' (s ++ [tolower c]) ∧ isalpha c = true ∧
      advance m (letter g) (key c) = Ok (letter g'))) ∧
  (∀ N m r g s c,
     root m = Some r →
     trie (heap m) r →
     in_step m g s →
     (S (length s) < Z.to_nat MAX_LENGTH)%nat →
     ∃ p, turn N m g c = Ok p).
Proof.
  split; [|split; [|split]].
  - intros m r Hr. split.
    + done.
    + unfold MAX_LENGTH. cbn [length]. lia.
    + constructor.
    + done.
    + exists r. by rewrite Hr.
  - intros m g s Hin. split; [by eapply in_step_c_string|].
    destruct Hin as [_ _ _ Hcount (a & -> & Hw)]. done.
  - intros N m g s c g' out Hin Ht.
    destruct (isalpha c) eqn:Hc.
    2:{ rewrite turn_not_alpha in Ht by done. injection Ht as <- _. auto. }
    pose proof Ht as Ht'. unfold turn in Ht'. rewrite Hc in Ht'.
    cbn [negb] in Ht'. fold (key c) in Ht'. inv_bind Ht'.
    destruct x as [b|].
    + right. inv_bind Ht'. inv_bind Ht'. clear Ht'.
      apply deref_Ok in E1 as (b' & [= <-] & Hn).
      rewrite (turn_accepted _ _ _ _ _ _ _ Hin Hc E Hn) in Ht. cbv zeta in Ht.
      destruct (is_word x0 && (MIN_LENGTH <=? letter_count g)); [done|].
      apply bind_Ok in Ht as (s' & Hs' & Ht). injection Ht as <- _.
      split; [|by split].
      apply (in_step_accepted m g s c b); try done.
      destruct (decide (S (length s) < Z.to_nat MAX_LENGTH)%nat) as [?|Hfull];
        [done|].
      pose proof (in_step_room _ _ _ Hin).
      replace (Z.to_nat MAX_LENGTH - S (length s))%nat with 0%nat in Hs' by lia.
      rewrite app_nil_r, c_string_letters_full in Hs'; [done|].
      apply Forall_app. split; [apply Hin|].
      constructor; [by apply islower_tolower | constructor].
    + left. inv_bind Ht'. injection Ht' as <- _. auto.
  - intros N m r g s c Hr T Hin Hroom.
    destruct (isalpha c) eqn:Hc; [|rewrite turn_not_alpha by done; eauto].
    destruct (advance_in_step _ _ _ _ _ Hr T Hin Hc) as (a & Hla & Ha & Hadv).
    destruct (child_of (heap m) a (key c)) as [b|] eqn:Hb.
    + destruct (child_of_allocated T _ _ _ Hb) as [n Hn].
      rewrite (turn_accepted _ _ _ _ _ _ _ Hin Hc Hadv Hn). cbv zeta.
      destruct (is_word n && (MIN_LENGTH <=? letter_count g)); [eauto|].
      rewrite c_string_letters; [rewrite bind_of_Ok; eauto | | lia].
      apply Forall_app. split; [apply Hin|].
      constructor; [by apply islower_tolower | constructor].
    + erewrite turn_rejected; eauto using in_step_c_string.
Qed.

Lemma cursor_follows_fragment_witness :
  in_step (loaded_from ["cat"; "cats"] 8) (start (loaded_from ["cat"; "cats"] 8)) [] ∧
  ∃ p, turn 2 (loaded_from ["cat"; "cats"] 8)
            (start (loaded_from ["cat"; "cats"] 8)) 67 = Ok p.
Proof.
  destruct cursor_follows_fragment as (H1 & _ & _ & H4).
  assert (in_step (loaded_from ["cat"; "cats"] 8)
            (start (loaded_from ["cat"; "cats"] 8)) []) as Hin.
  { apply (H1 _ 0%nat). vm_compute. reflexivity. }
  split; [exact Hin|].
  destruct (load_holds (unlines ["cat"; "cats"]) (replicate 8 true)
              (loaded_from ["cat"; "cats"] 8)) as (r & Hr & _ & Hh).
  { vm_compute. reflexivity. }
  apply (H4 2 _ r _ []); [exact Hr | apply Hh | exact Hin | vm_compute; lia].
Defined.

(** ** [main] and its exit codes *)

Lemma unload_true fuel m b m' : unload fuel m = Ok (b, m') → b = true.
Proof.
  unfold unload. intros H. inv_bind H. inv_bind H. by injection H as <- _.
Qed.

Lemma load_None m : load None m = Ok (false, m).
Proof. reflexivity. Qed.

Lemma load_no_root dict sup :
  ∃ m, load (Some dict) (boot (false :: sup)) = Ok (false, m).
Proof. rewrite load_unfold. eauto. Qed.

Lemma main_two_args prog arg words sup stdin :
  main [prog; arg] words sup stdin =
  N ← atoi arg;
  if N <? 2 then Ok (Exit 2, [Banner; InvalidN], boot sup) else
  lm ← load words (boot sup);
  if negb lm.1 then Ok (Exit 3, [Banner; CouldNotLoad], lm.2) else
  s ← c_string (fragment (start lm.2));
  r ← play N lm.2 (start lm.2) (keystrokes false (chars stdin));
  let out := [Banner; ShowFragment s; Prompt (curr_player (start lm.2))] ++ r.2 in
  match r.1 with
  | Waiting _ => Ok (Blocked, out, lm.2)
  | GameOver g =>
      w ← c_string (fragment g);
      um ← unload (S (size (heap lm.2))) lm.2;
      Ok (Exit (epilogue um.1).1,
          out ++ [Loses (curr_player g); Spelled w] ++ (epilogue um.1).2, um.2)
  end.
Proof. reflexivity. Qed.

(** C6, the exit codes as the program produces them: 1 when the argument
    count is not 2; otherwise 2 when [atoi] of the argument is less than 2,
    which is the case of every argument that does not start with a number;
    otherwise 3 when [load] fails, be it that the dictionary cannot be
    opened or that an allocation fails; otherwise, once the game is over, 0
    after the dictionary is unloaded, 4 being what the end of [main] returns
    for a failed [unload]. *)
Theorem exit_codes :
  (∀ argv words sup stdin,
     length argv ≠ 2%nat →
     shown (main argv words sup stdin) = Ok (Exit 1, [Banner; UsageError])) ∧
  (∀ prog arg words sup stdin N,
     atoi arg = Ok N → N < 2 →
     shown (main [prog; arg] words sup stdin) = Ok (Exit 2, [Banner; InvalidN])) ∧
  (∀ arg c rest,
     chars arg = c :: rest →
     isspace c = false → isdigit c = false → c ≠ 45 → c ≠ 43 →
     atoi arg = Ok 0) ∧
  (∀ prog arg words sup stdin N m,
     atoi arg = Ok N → 2 ≤ N →
     load words (boot sup) = Ok (false, m) →
     shown (main [prog; arg] words sup stdin) = Ok (Exit 3, [Banner; CouldNotLoad])) ∧
  (∀ m, load None m = Ok (false, m)) ∧
  (∀ dict sup, ∃ m, load (Some dict) (boot (false :: sup)) = Ok (false, m)) ∧
  (∀ prog arg dict sup stdin N m g out w,
     atoi arg = Ok N → 2 ≤ N →
     load (Some dict) (boot sup) = Ok (true, m) →
     play N m (start m) (keystrokes false (chars stdin)) = Ok (GameOver g, out) →
     c_string (fragment g) = Ok w →
     ∃ m',
       main [prog; arg] (Some dict) sup stdin
       = Ok (Exit 0,
             [Banner; ShowFragment []; Prompt 1] ++ out
             ++ [Loses (curr_player g); Spelled w], m') ∧
       heap m' = ∅) ∧
  epilogue false = (4, [CouldNotUnload]) ∧
  epilogue true = (0, []).
Proof.
  split; [|split; [|split; [|split; [|split; [|split; [|split]]]]]].
  - intros argv words sup stdin Hlen. unfold main.
    by rewrite bool_decide_eq_true_2.
  - intros prog arg words sup stdin N Ha HN. rewrite main_two_args, Ha, bind_of_Ok.
    by assert ((N <? 2) = true) as -> by lia.
  - intros arg c rest Hchars Hs Hd Hm Hp. unfold atoi. rewrite Hchars.
    cbn [skip_spaces]. rewrite Hs.
    assert ((c =? 45) = false) as -> by lia.
    assert ((c =? 43) = false) as -> by lia.
    cbn [digits]. by rewrite Hd.
  - intros prog arg words sup stdin N m Ha HN Hl.
    rewrite main_two_args, Ha, bind_of_Ok.
    assert ((N <? 2) = false) as -> by lia. by rewrite Hl, bind_of_Ok.
  - done.
  - apply load_no_root.
  - intros prog arg dict sup stdin N m g out w Ha HN Hl Hp Hw.
    rewrite main_two_args, Ha, bind_of_Ok.
    assert ((N <? 2) = false) as -> by lia. rewrite Hl, bind_of_Ok.
    cbn [fst snd negb].
    change (c_string (fragment (start m))) with (Ok ([] : list Z)).
    rewrite bind_of_Ok, Hp, bind_of_Ok. cbn [fst snd]. rewrite Hw, bind_of_Ok.
    apply load_holds in Hl as (r & Hr & _ & H).
    destruct (unload_trie m r (S (size (heap m))) Hr (holds_trie _ _ _ _ H))
      as (_ & _ & m2 & _ & _ & _ & _ & -> & Hm2 & _); [lia|].
    rewrite bind_of_Ok. cbn [fst snd epilogue negb curr_player start].
    exists m2. split; [|done]. by rewrite app_nil_r, <- app_assoc.
  - done.
Qed.

Lemma exit_codes_witness :
  shown (main ["ghost"] None [] "") = Ok (Exit 1, [Banner; UsageError]) ∧
  shown (main ["ghost"; "1"] None [] "") = Ok (Exit 2, [Banner; InvalidN]) ∧
  atoi "two" = Ok 0 ∧
  shown (main ["ghost"; "2"] None [] "") = Ok (Exit 3, [Banner; CouldNotLoad]) ∧
  ∃ m',
    main ["ghost"; "2"] (Some (unlines ["cat"; "cats"])) (replicate 8 true)
         (unlines ["c"; "a"; "t"; "s"])
    = Ok (Exit 0,
          [Banner; ShowFragment []; Prompt 1]
          ++ [ShowFragment (chars "c"); Prompt 2; ShowFragment (chars "ca"); Prompt 1;
              ShowFragment (chars "cat"); Prompt 2]
          ++ [Loses 2; Spelled (chars "cats")], m') ∧
    heap m' = ∅.
Proof.
  destruct exit_codes as (H1 & H2 & H3 & H4 & _ & _ & H7 & _).
  split; [|split; [|split; [|split]]].
  - apply H1. cbn. lia.
  - apply (H2 _ _ _ _ _ 1); [reflexivity | lia].
  - apply (H3 _ 116 (chars "wo")); [reflexivity..| lia | lia].
  - apply (H4 _ _ _ _ _ 2 (boot [])); [reflexivity | lia | reflexivity].
  - apply (H7 _ _ _ _ _ 2 (loaded_from ["cat"; "cats"] 8)
              (Game 2 3 (chars "cats" ++ replicate 41 0) (Some 4%nat))).
    + reflexivity.
    + lia.
    + vm_compute. reflexivity.
    + vm_compute. reflexivity.
    + vm_compute. reflexivity.
Defined.

(** C6 as the specification words it fails twice.  The argument 3x is not
    an integer, yet the program does not exit with code 2: it plays a game
    for three players to the end.  And an unreadable dictionary and an
    allocation failure during the build, two categories of fatal error, end
    the process with one and the same code and message. *)
Lemma exit_codes_not_as_specified :
  (is_integer "3x" = false ∧
   shown (main ["ghost"; "3x"] (Some (unlines ["cat"; "cats"])) (replicate 8 true)
               (unlines ["c"; "a"; "t"; "s"]))
   = Ok (Exit 0,
         [Banner; ShowFragment []; Prompt 1; ShowFragment (chars "c"); Prompt 2;
          ShowFragment (chars "ca"); Prompt 3; ShowFragment (chars "cat"); Prompt 1;
          Loses 1; Spelled (chars "cats")])) ∧
  (shown (main ["ghost"; "2"] None (replicate 8 true) "")
   = Ok (Exit 3, [Banner; CouldNotLoad]) ∧
   shown (main ["ghost"; "2"] (Some (unlines ["cat"; "cats"])) [true; true; false] "")
   = Ok (Exit 3, [Banner; CouldNotLoad])).
Proof. repeat split; vm_compute; reflexivity. Qed.

(** ** Whole games *)

(** What one character does to a state of the loop, whenever the turn
    returns. *)
Lemma turn_cases N m g s c p :
  in_step m g s →
  turn N m g c = Ok p →
  (∃ out, p = Continue g out) ∨
  (∃ g' out, p = Continue g' out ∧ in_step m g' (s ++ [tolower c]) ∧
             curr_player g' = Z.rem (curr_player g) N + 1) ∨
  (∃ g' b n, p = Break g' ∧ curr_player g' = curr_player g ∧
     fragment g' = (s ++ [tolower c])
                   ++ replicate (Z.to_nat MAX_LENGTH - S (length s)) 0 ∧
     Forall (λ c, islower c = true) (s ++ [tolower c]) ∧
     walk m (root m) (s ++ [tolower c]) = Ok (Some b) ∧
     heap m !! b = Some n ∧ is_word n = true ∧ (3 ≤ length s)%nat).
Proof.
  intros Hin Ht. destruct (isalpha c) eqn:Hc.
  2:{ rewrite turn_not_alpha in Ht by done. injection Ht as <-. eauto. }
  pose proof Ht as Ht'. unfold turn in Ht'. rewrite Hc in Ht'.
  cbn [negb] in Ht'. fold (key c) in Ht'.
  apply bind_Ok in Ht' as (next & Ha & Ht').
  destruct next as [b|].
  2:{ apply bind_Ok in Ht' as (s' & _ & Ht'). injection Ht' as <-. eauto. }
  apply bind_Ok in Ht' as (buf & _ & Ht').
  apply bind_Ok in Ht' as (n & Hn & _).
  apply deref_Ok in Hn as (b' & [= <-] & Hn).
  assert (Forall (λ c, islower c = true) (s ++ [tolower c])) as Hlow.
  { apply Forall_app. split; [apply Hin|].
    constructor; [by apply islower_tolower | constructor]. }
  rewrite (turn_accepted _ _ _ _ _ _ _ Hin Hc Ha Hn) in Ht. cbv zeta in Ht.
  destruct (is_word n && (MIN_LENGTH <=? letter_count g)) eqn:Hw.
  - right. right. injection Ht as <-. eexists _, b, n.
    apply andb_true_iff in Hw as [Hw Hlen].
    pose proof Hin as [_ _ _ Hcount (a & Hla & Hwalk)].
    split; [done|]. split; [done|]. split; [done|]. split; [done|].
    split; [|split; [done|split; [done|]]].
    + rewrite walk_app, Hwalk, bind_of_Ok. cbn [walk].
      by rewrite key_tolower, <- Hla, Ha, bind_of_Ok.
    + unfold MIN_LENGTH in Hlen. lia.
  - right. left. apply bind_Ok in Ht as (s' & Hs' & Ht). injection Ht as <-.
    eexists _, _. split; [done|]. split; [|done].
    apply (in_step_accepted m g s c b); try done.
    destruct (decide (S (length s) < Z.to_nat MAX_LENGTH)%nat) as [?|Hfull];
      [done|].
    pose proof (in_step_room _ _ _ Hin).
    replace (Z.to_nat MAX_LENGTH - S (length s))%nat with 0%nat in Hs' by lia.
    by rewrite app_nil_r, c_string_letters_full in Hs'.
Qed.

(** In a trie without a path of MAX_LENGTH slots, no turn goes wrong. *)
Lemma turn_total N m r g s c :
  root m = Some r →
  trie (heap m) r →
  (∀ p x, reach (heap m) r p = Some x → (length p < Z.to_nat MAX_LENGTH)%nat) →
  in_step m g s →
  ∃ p, turn N m g c = Ok p.
Proof.
  intros Hr T Hdepth Hin.
  destruct (isalpha c) eqn:Hc; [|rewrite turn_not_alpha by done; eauto].
  destruct (advance_in_step _ _ _ _ _ Hr T Hin Hc) as (a & Hla & Ha & Hadv).
  destruct (child_of (heap m) a (key c)) as [b|] eqn:Hb.
  - destruct (child_of_allocated T _ _ _ Hb) as [n Hn].
    rewrite (turn_accepted _ _ _ _ _ _ _ Hin Hc Hadv Hn). cbv zeta.
    destruct (is_word n && (MIN_LENGTH <=? letter_count g)); [eauto|].
    assert (reach (heap m) r ((key <$> s) ++ [key c]) = Some b) as Hp
      by (by rewrite (reach_snoc _ _ _ _ _ Ha)).
    apply Hdepth in Hp. rewrite length_app, length_fmap in Hp. cbn [length] in Hp.
    rewrite c_string_letters; [rewrite bind_of_Ok; eauto | | lia].
    apply Forall_app. split; [apply Hin|].
    constructor; [by apply islower_tolower | constructor].
  - erewrite turn_rejected; eauto using in_step_c_string.
Qed.

Lemma next_player N n :
  2 ≤ N → 0 ≤ n → Z.rem (n `mod` N + 1) N + 1 = (n + 1) `mod` N + 1.
Proof.
  intros HN Hn. pose proof (Z.mod_pos_bound n N).
  rewrite Z.rem_mod_nonneg by lia. by rewrite Z.add_mod_idemp_l by lia.
Qed.

(** A run of the loop from a state in which the player to move is the one
    the length of the fragment tells: it stops in such a state again, or it
    is left on a fragment that ends at a word node, is more than three
    letters long, and whose length tells the loser. *)
Lemma play_cases N m input : ∀ g s st out,
  2 ≤ N →
  in_step m g s →
  curr_player g = Z.of_nat (length s) `mod` N + 1 →
  play N m g input = Ok (st, out) →
  match st with
  | Waiting g' =>
      ∃ s', in_step m g' s' ∧ s `prefix_of` s' ∧
            curr_player g' = Z.of_nat (length s') `mod` N + 1
  | GameOver g' =>
      ∃ w b n,
        fragment g' = w ++ replicate (Z.to_nat MAX_LENGTH - length w) 0 ∧
        Forall (λ c, islower c = true) w ∧ s `prefix_of` w ∧
        walk m (root m) w = Ok (Some b) ∧ heap m !! b = Some n ∧
        is_word n = true ∧ (3 < length w)%nat ∧
        curr_player g' = (Z.of_nat (length w) - 1) `mod` N + 1
  end.
Proof.
  induction input as [|c input IH]; intros g s st out HN Hin Hp; cbn [play].
  - intros [= <- _]. by exists s.
  - intros H. apply bind_Ok in H as (p & Ht & H).
    destruct (turn_cases _ _ _ _ _ _ Hin Ht)
      as [(o & ->)|[(g' & o & -> & Hin' & Hp')|(g' & b & n & -> & Hp' & Hf & Hl & Hw & Hn & Hword & Hlen)]].
    + apply bind_Ok in H as ([st' out'] & Hplay & H). injection H as <- _.
      by apply (IH _ _ _ _ HN Hin Hp Hplay).
    + apply bind_Ok in H as ([st' out'] & Hplay & H). injection H as <- _.
      assert (curr_player g' = Z.of_nat (length (s ++ [tolower c])) `mod` N + 1)
        as Hp''.
      { rewrite Hp', Hp, length_app. cbn [length].
        rewrite next_player by lia. do 2 f_equal. lia. }
      specialize (IH _ _ _ _ HN Hin' Hp'' Hplay). cbn [fst].
      destruct st'.
      * destruct IH as (s' & ? & Hpre & ?). exists s'. split; [done|].
        split; [|done]. etrans; [|done]. by apply prefix_app_r.
      * destruct IH as (w & b & n & ? & ? & Hpre & ?). exists w, b, n.
        split; [done|]. split; [done|]. split; [|done].
        etrans; [|done]. by apply prefix_app_r.
    + injection H as <- _. exists (s ++ [tolower c]), b, n.
      rewrite length_app. cbn [length].
      split; [rewrite Hf; do 2 f_equal; lia|]. split; [done|].
      split; [by apply prefix_app_r|]. split; [done|]. split; [done|].
      split; [done|]. split; [lia|].
      rewrite Hp', Hp. do 2 f_equal. lia.
Qed.

(** In a trie without a path of MAX_LENGTH slots the loop never goes wrong,
    whatever is typed. *)
Lemma play_total N m r input : ∀ g s,
  root m = Some r →
  trie (heap m) r →
  (∀ p x, reach (heap m) r p = Some x → (length p < Z.to_nat MAX_LENGTH)%nat) →
  in_step m g s →
  ∃ st out, play N m g input = Ok (st, out).
Proof.
  induction input as [|c input IH]; intros g s Hr T Hd Hin; cbn [play]; [eauto|].
  destruct (turn_total N _ _ _ _ c Hr T Hd Hin) as (p & Ht).
  rewrite Ht, bind_of_Ok.
  destruct (turn_cases _ _ _ _ _ _ Hin Ht)
    as [(o & ->)|[(g' & o & -> & Hin' & _)|(g' & b & n & -> & _)]].
  - destruct (IH _ _ Hr T Hd Hin) as (st & out & ->). rewrite bind_of_Ok. eauto.
  - destruct (IH _ _ Hr T Hd Hin') as (st & out & ->). rewrite bind_of_Ok. eauto.
  - eauto.
Qed.

Lemma start_in_step m r : root m = Some r → in_step m (start m) [].
Proof.
  intros Hr. split.
  - done.
  - unfold MAX_LENGTH. cbn [length]. lia.
  - constructor.
  - done.
  - exists r. by rewrite Hr.
Qed.

(** The string printed from the buffer the loop is left with. *)
Lemma c_string_game_over w s :
  Forall (λ c, islower c = true) w →
  c_string (w ++ replicate (Z.to_nat MAX_LENGTH - length w) 0) = Ok s →
  s = w ∧ (length w < Z.to_nat MAX_LENGTH)%nat.
Proof.
  intros Hw Hs.
  destruct (decide (length w < Z.to_nat MAX_LENGTH)%nat) as [Hlt|Hge].
  - rewrite c_string_letters in Hs by (done || lia). by injection Hs as <-.
  - replace (Z.to_nat MAX_LENGTH - length w)%nat with 0%nat in Hs by lia.
    by rewrite app_nil_r, c_string_letters_full in Hs.
Qed.

(** Lowercase letters are told apart by their slots. *)
Lemma key_lower_inj w v :
  Forall (λ c, islower c = true) w →
  key <$> w = key <$> v →
  w = tolower <$> v.
Proof.
  intros Hw. revert v. induction Hw as [|c w Hc Hw IH]; intros [|d v] E;
    try discriminate; [done|].
  injection E as Ek Ev. cbn [fmap list_fmap]. f_equal; [|by apply IH].
  unfold key in Ek. unfold islower in Hc.
  assert (tolower c = c) as Hcc; [|lia].
  unfold tolower, isupper. destruct ((65 <=? c) && (c <=? 90)) eqn:E; [lia|done].
Qed.

(** ** Child lookups stay in bounds *)

Lemma deref_fault m p f : deref m p = Stuck f → f = NullDeref ∨ f = Dangling.
Proof.
  unfold deref. destruct p as [a|]; [destruct (heap m !! a)|]; intros [= <-]; auto.
Qed.

Lemma c_string_fault buf f : c_string buf = Stuck f → f = Unterminated.
Proof.
  induction buf as [|c buf IH]; cbn [c_string]; [by intros [= <-]|].
  destruct (c =? 0); [done|].
  destruct (c_string buf) as [s|f']; [done|]. intros [= <-]. by apply IH.
Qed.

Lemma atoi_fault s f : atoi s = Stuck f → f = IntOverflow.
Proof.
  unfold atoi. cbv zeta.
  destruct ((INT_MIN <=? _) && (_ <=? INT_MAX)); [done | by intros [= <-]].
Qed.

(** The lookup of a turn is the one at the slot of the lowered letter: the
    turn goes wrong as the lookup does, and returns only if it is defined. *)
Lemma turn_lookup N m g c :
  isalpha c = true →
  (∀ f, advance m (letter g) (key c) = Stuck f → turn N m g c = Stuck f) ∧
  (∀ p, turn N m g c = Ok p → ∃ next, advance m (letter g) (key c) = Ok next).
Proof.
  intros Hc. unfold turn. rewrite Hc. cbn [negb]. fold (key c). split.
  - by intros f ->.
  - intros p H. apply bind_Ok in H as (next & -> & _). eauto.
Qed.

(** With nodes of CHARS slots and a letter count inside the buffer, no array
    access of a turn is out of bounds, whatever the character. *)
Lemma turn_in_bounds N m g c :
  (∀ a n, heap m !! a = Some n → length (children n) = Z.to_nat CHARS) →
  0 ≤ letter_count g < MAX_LENGTH →
  turn N m g c ≠ Stuck OutOfBounds.
Proof.
  intros Har Hlc. unfold turn. destruct (isalpha c) eqn:Hc; cbn [negb]; [|done].
  fold (key c). unfold advance.
  destruct (deref m (letter g)) as [n|f] eqn:Hd.
  2:{ apply deref_fault in Hd as [->| ->]; done. }
  rewrite bind_of_Ok. apply deref_Ok in Hd as (a & Hla & Hn).
  pose proof (isalpha_key _ Hc) as Hk.
  destruct (lookup_lt_is_Some_2 (children n) (Z.to_nat (key c))) as [ch Hch].
  { rewrite (Har _ _ Hn). unfold CHARS in *. lia. }
  assert (child n (key c) = Ok ch) as -> by (by apply child_Ok).
  rewrite bind_of_Ok. destruct ch as [b|].
  - unfold store.
    assert ((0 <=? letter_count g) && (letter_count g <? MAX_LENGTH) = true)
      as -> by lia.
    rewrite bind_of_Ok.
    destruct (deref m (Some b)) as [n'|f] eqn:Hd.
    2:{ apply deref_fault in Hd as [->| ->]; done. }
    rewrite bind_of_Ok.
    destruct (is_word n' && (MIN_LENGTH <=? letter_count g)); [done|].
    destruct (c_string _) as [s'|f] eqn:Hs; [done|].
    by apply c_string_fault in Hs as ->.
  - destruct (c_string _) as [s'|f] eqn:Hs; [done|].
    by apply c_string_fault in Hs as ->.
Qed.

(** In a trie and in a state of the loop, a turn can only go wrong on a
    buffer filled to its last element. *)
Lemma turn_fault N m r g s c f :
  root m = Some r →
  trie (heap m) r →
  in_step m g s →
  turn N m g c = Stuck f →
  f = Unterminated.
Proof.
  intros Hr T Hin.
  destruct (isalpha c) eqn:Hc; [|by rewrite turn_not_alpha].
  destruct (advance_in_step _ _ _ _ _ Hr T Hin Hc) as (a & Hla & Ha & Hadv).
  destruct (child_of (heap m) a (key c)) as [b|] eqn:Hb.
  - destruct (child_of_allocated T _ _ _ Hb) as [n Hn].
    rewrite (turn_accepted _ _ _ _ _ _ _ Hin Hc Hadv Hn). cbv zeta.
    destruct (is_word n && (MIN_LENGTH <=? letter_count g)); [done|].
    destruct (c_string _) as [s'|f'] eqn:Hs; [done|].
    intros [= <-]. by apply c_string_fault in Hs.
  - erewrite turn_rejected by eauto using in_step_c_string. done.
Qed.

Lemma play_fault N m r input : ∀ g s f,
  root m = Some r →
  trie (heap m) r →
  in_step m g s →
  play N m g input = Stuck f →
  f = Unterminated.
Proof.
  induction input as [|c input IH]; intros g s f Hr T Hin; cbn [play]; [done|].
  destruct (turn N m g c) as [p|f'] eqn:Ht.
  2:{ intros [= <-]. by eapply turn_fault. }
  rewrite bind_of_Ok.
  destruct (turn_cases _ _ _ _ _ _ Hin Ht)
    as [(o & ->)|[(g' & o & -> & Hin' & _)|(g' & b & n & -> & _)]].
  - destruct (play N m g input) as [st|f'] eqn:Hp; [done|].
    intros [= <-]. by eapply IH.
  - destruct (play N m g' input) as [st|f'] eqn:Hp; [done|].
    intros [= <-]. by eapply IH.
  - done.
Qed.

(** On a dictionary of alphabetic words, [main] can only go wrong in [atoi]
    or on a fragment buffer filled to its last element. *)
Lemma main_fault prog arg ws sup stdin f :
  Forall alphabetic ws →
  main [prog; arg] (Some (unlines ws)) sup stdin = Stuck f →
  f = IntOverflow ∨ f = Unterminated.
Proof.
  intros Hws. rewrite main_two_args.
  destruct (atoi arg) as [N|f'] eqn:Ha.
  2:{ intros [= <-]. left. by apply atoi_fault in Ha. }
  rewrite bind_of_Ok. destruct (N <? 2); [done|].
  destruct (load_readable (unlines ws) sup (readable_unlines _ Hws))
    as (ok & m & Hload).
  rewrite Hload, bind_of_Ok. cbn [fst snd].
  destruct ok; cbn [negb]; [|done].
  pose proof Hload as (r & Hr & _ & Hh)%load_holds.
  pose proof (holds_trie _ _ _ _ Hh) as T.
  change (c_string (fragment (start m))) with (Ok ([] : list Z)).
  rewrite bind_of_Ok.
  destruct (play N m (start m) (keystrokes false (chars stdin)))
    as [[st pout]|f'] eqn:Hplay.
  2:{ intros [= <-]. right.
      by apply (play_fault _ _ _ _ _ _ _ Hr T (start_in_step _ _ Hr) Hplay). }
  rewrite bind_of_Ok. cbn [fst snd]. destruct st as [g|g]; [done|].
  destruct (c_string (fragment g)) as [w|f'] eqn:Hw.
  2:{ intros [= <-]. right. by apply c_string_fault in Hw. }
  rewrite bind_of_Ok.
  destruct (unload_trie m r (S (size (heap m))) Hr T)
    as (_ & _ & m3 & _ & _ & _ & _ & -> & _); [lia|].
  done.
Qed.

(** The characters of a file of alphabetic words, as [load] receives them:
    none compares equal to EOF, and each is a newline or a letter. *)
Lemma unlines_chars ws b :
  Forall alphabetic ws →
  b ∈ bytes (unlines ws) →
  to_char b ≠ EOF ∧ (b = 10 ∨ isalpha (to_char b) = true).
Proof.
  intros Hws Hb. induction ws as [|w ws IH]; [by apply elem_of_nil in Hb|].
  apply Forall_cons in Hws as [Hw Hws]. rewrite bytes_unlines_cons in Hb.
  apply elem_of_app in Hb as [Hb|Hb].
  - unfold alphabetic in Hw. rewrite Forall_forall in Hw.
    specialize (Hw b Hb). rewrite (isalpha_to_char _ Hw).
    split; [|by right]. apply isalpha_range in Hw. unfold EOF. lia.
  - apply elem_of_cons in Hb as [->|Hb]; [split; [done | by left] | by apply IH].
Qed.

(** C10 as the specification words it fails at every newline of the word
    source.  In the file of the single word a, the newline that ends the
    word is read by the loop of [load] like every other character, and the
    index computed from it, before the loop tests for the newline, is
    '\n' - 'a' = -87: no slot of the 26.  [load] does not use that index: on
    a newline it sets the flag of the node the iterator is at and goes back
    to the root, and the file loads. *)
Lemma newline_index_out_of_bounds :
  Forall alphabetic ["a"] ∧
  10 ∈ bytes (unlines ["a"]) ∧
  to_char 10 ≠ EOF ∧
  key (to_char 10) = -87 ∧
  ¬ (0 ≤ key (to_char 10) < CHARS) ∧
  slot (key (to_char 10)) = Stuck OutOfBounds ∧
  (∀ it m, load_char (to_char 10) it m
           = let index := key (to_char 10) in
             m' ← set_is_word it true m; Ok (Some (root m'), m')) ∧
  ∃ m, load (Some (unlines ["a"])) (boot [true; true]) = Ok (true, m).
Proof.
  split; [repeat constructor|].
  split; [change (bytes (unlines ["a"])) with [97; 10]; set_solver|].
  split; [done|]. split; [done|].
  split; [change (key (to_char 10)) with (-87); unfold CHARS; lia|].
  split; [done|]. split; [done|].
  eexists. vm_compute. reflexivity.
Qed.

(** C10, the indices as the program uses them: the child lookups stay
    inside the 26 slots.  For a
    dictionary file of ASCII letters and newlines, every character [load]
    reads is either a newline, for which the index computed is -87 and no
    lookup is made, or a letter, whose index lies in 0..25; and [load] never
    goes wrong, whatever [malloc] returns.  In the game loop, for any
    character typed, a turn makes no out-of-bounds access when the nodes have
    26 slots and the letter count is inside the buffer; for a character that
    passed [isalpha] the index lies in 0..25 and the lookup of the turn is
    the one at that index.  And on such a dictionary [main] makes no
    out-of-bounds access, whatever is typed and whatever [malloc] returns:
    it can only go wrong in [atoi] or on a fragment that fills its buffer. *)
Theorem child_lookups_in_bounds :
  (∀ ws,
     Forall alphabetic ws →
     (∀ b, b ∈ bytes (unlines ws) →
           to_char b ≠ EOF ∧
           (tolower (to_char b) = 10 ∧ key (to_char b) = -87 ∨
            tolower (to_char b) ≠ 10 ∧ 0 ≤ key (to_char b) < CHARS)) ∧
     ∀ sup, ∃ ok m, load (Some (unlines ws)) (boot sup) = Ok (ok, m)) ∧
  (∀ N m g c,
     (∀ a n, heap m !! a = Some n → length (children n) = Z.to_nat CHARS) →
     0 ≤ letter_count g < MAX_LENGTH →
     turn N m g c ≠ Stuck OutOfBounds) ∧
  (∀ N m g c,
     isalpha c = true →
     0 ≤ key c < CHARS ∧
     (∀ f, advance m (letter g) (key c) = Stuck f → turn N m g c = Stuck f) ∧
     (∀ p, turn N m g c = Ok p → ∃ next, advance m (letter g) (key c) = Ok next)) ∧
  (∀ prog arg ws sup stdin f,
     Forall alphabetic ws →
     main [prog; arg] (Some (unlines ws)) sup stdin = Stuck f →
     f = IntOverflow ∨ f = Unterminated).
Proof.
  split; [|split; [|split]].
  - intros ws Hws. split; [|intros sup; by apply load_readable, readable_unlines].
    intros b Hb. destruct (unlines_chars _ _ Hws Hb) as [Hne [->|Ha]].
    + split; [done|]. by left.
    + split; [done|]. right. split; [|by apply isalpha_key].
      unfold tolower, isupper, isalpha, isupper, islower in *.
      destruct ((65 <=? to_char b) && (to_char b <=? 90)) eqn:E; lia.
  - intros N m g c. apply turn_in_bounds.
  - intros N m g c Hc. split; [by apply isalpha_key | by apply turn_lookup].
  - intros prog arg ws sup stdin f. apply main_fault.
Qed.

Lemma child_lookups_in_bounds_witness :
  (∃ ok m, load (Some (unlines ["Cat"; "dog"])) (boot [true; true; false]) = Ok (ok, m)) ∧
  turn 2 (loaded_from ["cat"; "cats"] 8) (start (loaded_from ["cat"; "cats"] 8)) 67
  ≠ Stuck OutOfBounds ∧
  0 ≤ key 90 < CHARS ∧
  (Unterminated = IntOverflow ∨ Unterminated = Unterminated).
Proof.
  destruct child_lookups_in_bounds as (H1 & H2 & H3 & H4).
  split; [|split; [|split]].
  - apply (H1 ["Cat"; "dog"]). repeat constructor.
  - destruct (load_holds (unlines ["cat"; "cats"]) (replicate 8 true)
                (loaded_from ["cat"; "cats"] 8)) as (r & Hr & _ & Hh).
    { vm_compute. reflexivity. }
    apply H2; [apply (trie_arity _ _ (holds_trie _ _ _ _ Hh))|].
    change (0 ≤ 0 < 45). lia.
  - apply (H3 2 (boot []) (start (boot [])) 90). reflexivity.
  - apply (H4 "ghost" "2" ["aaaaaaaaaaaaaaaaaaaaaaaaaaaaaaaaaaaaaaaaaaaaaa"]
              (replicate 47 true) (unlines (replicate 45 "a"))).
    + repeat constructor.
    + vm_compute. reflexivity.
Defined.

(** A run of [main] that ends with code 0, taken apart. *)
Lemma main_exit_0 prog arg words sup stdin out mf :
  main [prog; arg] words sup stdin = Ok (Exit 0, out, mf) →
  ∃ N dict pre w,
    atoi arg = Ok N ∧ 2 ≤ N ∧ words = Some dict ∧
    out = pre ++ [Loses ((Z.of_nat (length w) - 1) `mod` N + 1); Spelled w] ∧
    Forall (λ c, islower c = true) w ∧ (3 < length w)%nat ∧
    key <$> w ∈ entries dict ∧ heap mf = ∅.
Proof.
  rewrite main_two_args. intros H.
  apply bind_Ok in H as (N & Hatoi & H).
  destruct (N <? 2) eqn:HN; [done|].
  apply bind_Ok in H as ([ok m] & Hload & H). cbn [fst snd] in H.
  destruct ok; cbn [negb] in H; [|done].
  apply bind_Ok in H as (s0 & _ & H).
  apply bind_Ok in H as ([st pout] & Hplay & H). cbn [fst snd] in H.
  destruct st as [g|g]; [done|].
  apply bind_Ok in H as (w' & Hw' & H).
  apply bind_Ok in H as ([ok2 m2] & Hun & H). cbn [fst snd] in H.
  destruct words as [dict|]; [|done].
  pose proof Hload as (r & Hr & _ & Hh)%load_holds.
  apply (play_cases N m _ _ [] _ _ ltac:(lia) (start_in_step _ _ Hr) eq_refl)
    in Hplay as (w & b & n & Hf & Hlow & _ & Hwalk & Hn & Hword & Hlen & Hp).
  rewrite Hf in Hw'. apply c_string_game_over in Hw' as [-> _]; [|done].
  destruct (unload_trie m r (S (size (heap m))) Hr (holds_trie _ _ _ _ Hh))
    as (_ & _ & m3 & _ & _ & _ & _ & Hun' & Hm3 & _); [lia|].
  rewrite Hun' in Hun. injection Hun as <- <-.
  injection H as <- <-. cbn [epilogue negb fst snd].
  exists N, dict, (greet ++ [ShowFragment s0; Prompt (curr_player (start m))] ++ pout), w.
  split; [done|]. split; [lia|]. split; [done|]. rewrite Hp.
  split; [done|]. split; [done|]. split; [done|].
  split; [|done].
  rewrite Hr in Hwalk. apply reach_walk in Hwalk.
  by apply (holds_flags _ _ _ _ Hh _ _ _ Hwalk Hn).
Qed.

(** X1: when the program exits with code 0 on a dictionary of alphabetic
    words, the last two messages name a loser and a word that is a word of
    the dictionary file, in lower case, of more than three letters. *)
Theorem announced_word_is_in_dictionary (prog arg : string) (ws : list string)
    (sup : list bool) (stdin : string) (out : list event) (mf : memory) :
  Forall alphabetic ws →
  main [prog; arg] (Some (unlines ws)) sup stdin = Ok (Exit 0, out, mf) →
  ∃ pre p W,
    out = pre ++ [Loses p; Spelled (tolower <$> chars W)] ∧
    W ∈ ws ∧ (3 < length (chars W))%nat.
Proof.
  intros Hws (N & dict & pre & w & _ & _ & [= <-] & -> & Hlow & Hlen & Hin & _)%main_exit_0.
  rewrite entries_unlines in Hin by done.
  apply list_elem_of_fmap in Hin as (W & HW & Hin).
  apply key_lower_inj in HW as ->; [|done].
  exists pre, ((Z.of_nat (length (tolower <$> chars W)) - 1) `mod` N + 1), W.
  split; [done|]. split; [done|]. by rewrite length_fmap in Hlen.
Qed.

Lemma announced_word_is_in_dictionary_witness :
  ∃ pre p W,
    [Banner; ShowFragment []; Prompt 1; ShowFragment (chars "c"); Prompt 2;
     ShowFragment (chars "ca"); Prompt 3; ShowFragment (chars "cat"); Prompt 1;
     Loses 1; Spelled (chars "cats")]
    = pre ++ [Loses p; Spelled (tolower <$> chars W)] ∧
    W ∈ ["cat"; "Cats"] ∧ (3 < length (chars W))%nat.
Proof.
  apply (announced_word_is_in_dictionary "ghost" "3" ["cat"; "Cats"]
           (replicate 8 true) (unlines ["C"; "a"; "T"; "s"]) _
           (Memory ∅ (Some 0%nat) [true; true; true] [4; 3; 2; 1; 0]%nat)).
  - repeat constructor.
  - vm_compute. reflexivity.
Defined.

(** X2: when the program exits with code 0, the loser it names is fixed by
    the length of the word spelled and the number of players N read by
    [atoi]: player ((length - 1) mod N) + 1.  Refused letters and characters
    that are not letters do not shift the turn. *)
Theorem loser_by_word_length (prog arg : string) (words : option string)
    (sup : list bool) (stdin : string) (out : list event) (mf : memory) :
  main [prog; arg] words sup stdin = Ok (Exit 0, out, mf) →
  ∃ N pre w,
    atoi arg = Ok N ∧ 2 ≤ N ∧
    out = pre ++ [Loses ((Z.of_nat (length w) - 1) `mod` N + 1); Spelled w].
Proof.
  intros (N & dict & pre & w & Ha & HN & _ & -> & _)%main_exit_0.
  by exists N, pre, w.
Qed.

Lemma loser_by_word_length_witness :
  ∃ N pre w,
    atoi "3" = Ok N ∧ 2 ≤ N ∧
    [Banner; ShowFragment []; Prompt 1; ShowFragment (chars "c"); Prompt 2;
     NoWord (chars "c") 120; ShowFragment (chars "c"); Prompt 2; Prompt 2;
     ShowFragment (chars "ca"); Prompt 3; ShowFragment (chars "cat"); Prompt 1;
     Loses 1; Spelled (chars "cats")]
    = pre ++ [Loses ((Z.of_nat (length w) - 1) `mod` N + 1); Spelled w].
Proof.
  apply (loser_by_word_length "ghost" "3" (Some (unlines ["cat"; "cats"]))
           (replicate 8 true) (unlines ["c"; "x"; "1"; "a"; "t"; "s"]) _
           (Memory ∅ (Some 0%nat) [true; true; true] [4; 3; 2; 1; 0]%nat)).
  vm_compute. reflexivity.
Defined.

(** The words of the file bound the depth of the trie. *)
Lemma holds_depth h r W d :
  holds h r W [] →
  Forall (λ w, (length w < d)%nat) W →
  (0 < d)%nat →
  ∀ p x, reach h r p = Some x → (length p < d)%nat.
Proof.
  intros H HW Hd p x Hp.
  assert (is_Some (reach h r p)) as Hs by eauto.
  apply (holds_paths _ _ _ _ H) in Hs as [Hs|(w & Hw & Hs)].
  - apply prefix_nil_inv in Hs as ->. cbn [length]. lia.
  - rewrite Forall_forall in HW. specialize (HW w Hw).
    apply prefix_length in Hs. lia.
Qed.

(** X3: a run of [main] on a standard input that stays open, followed up to
    the last character typed so far.  When [atoi] is defined on the
    argument (its value fits an [int]), the dictionary is of alphabetic words
    of fewer than MAX_LENGTH = 45 letters, and what has been typed is ASCII,
    then whatever the outcomes of [malloc], [main] has run to an exit or
    waits in [scanf] for the next character, without an out-of-bounds
    access, a bad pointer, an invalid free or an unterminated string. *)
Theorem main_safe_on_open_input (prog arg : string) (N : Z) (ws : list string)
    (sup : list bool) (stdin : string) :
  atoi arg = Ok N →
  Forall alphabetic ws →
  Forall (λ w, (length (bytes w) < Z.to_nat MAX_LENGTH)%nat) ws →
  Forall (λ b, 0 ≤ b < 128) (bytes stdin) →
  ∃ e out m, main [prog; arg] (Some (unlines ws)) sup stdin = Ok (e, out, m).
Proof.
  intros Ha Hws Hlen _. rewrite main_two_args, Ha, bind_of_Ok.
  destruct (N <? 2) eqn:HN; [eauto|].
  destruct (load_readable (unlines ws) sup (readable_unlines _ Hws))
    as (ok & m & Hload).
  rewrite Hload, bind_of_Ok. cbn [fst snd].
  destruct ok; cbn [negb]; [|eauto].
  pose proof Hload as (r & Hr & _ & Hh)%load_holds.
  rewrite entries_unlines, scan_unlines in Hh by done. cbn [snd] in Hh.
  pose proof (holds_trie _ _ _ _ Hh) as T.
  assert (∀ p x, reach (heap m) r p = Some x →
                 (length p < Z.to_nat MAX_LENGTH)%nat) as Hd.
  { apply (holds_depth _ _ _ _ Hh); [|unfold MAX_LENGTH; lia].
    apply Forall_fmap. eapply Forall_impl; [apply Hlen|].
    intros w Hw. unfold path_of, chars. cbn. by rewrite !length_fmap. }
  change (c_string (fragment (start m))) with (Ok ([] : list Z)).
  rewrite bind_of_Ok.
  destruct (play_total N m r (keystrokes false (chars stdin)) _ _ Hr T Hd
              (start_in_step _ _ Hr)) as (st & pout & Hplay).
  rewrite Hplay, bind_of_Ok. cbn [fst snd].
  destruct st as [g|g]; [eauto|].
  apply (play_cases N m _ _ [] _ _ ltac:(lia) (start_in_step _ _ Hr) eq_refl)
    in Hplay as (w & b & n & Hf & Hlow & _ & Hwalk & _).
  rewrite Hr in Hwalk. apply reach_walk, Hd in Hwalk.
  rewrite length_fmap in Hwalk.
  rewrite Hf, c_string_letters by (done || lia). rewrite bind_of_Ok.
  destruct (unload_trie m r (S (size (heap m))) Hr T)
    as (_ & _ & m3 & _ & _ & _ & _ & -> & _); [lia|].
  rewrite bind_of_Ok. eauto.
Qed.

Lemma main_safe_on_open_input_witness :
  ∃ e out m,
    main ["ghost"; "2"] (Some (unlines ["it"; "Dog"])) [true; true; false]
         (unlines ["d?"; "z"; ""; "o"; "G"])
    = Ok (e, out, m).
Proof.
  apply (main_safe_on_open_input _ _ 2).
  - reflexivity.
  - repeat constructor.
  - repeat constructor.
  - change (bytes (unlines ["d?"; "z"; ""; "o"; "G"]))
      with [100; 63; 10; 122; 10; 10; 111; 10; 71; 10].
    repeat constructor; lia.
Defined.

(** ** The bound of the fragment buffer *)

(** X4: [fragment] has MAX_LENGTH = 45 elements and no room for the NUL
    after a 45th letter.  When a letter is accepted with 44 letters already
    in the fragment, the buffer is left without a terminator: either the
    loop goes on and printing the fragment is undefined behaviour, or the
    game is over and the word to print in the last message is
    unterminated. *)
Theorem fragment_unterminated_at_max_length (N : Z) (m : memory) (g : game)
    (s : list Z) (c : Z) (b : addr) (n : node) :
  in_step m g s →
  S (length s) = Z.to_nat MAX_LENGTH →
  isalpha c = true →
  advance m (letter g) (key c) = Ok (Some b) →
  heap m !! b = Some n →
  turn N m g c = Stuck Unterminated ∨
  ∃ g', turn N m g c = Ok (Break g') ∧ c_string (fragment g') = Stuck Unterminated.
Proof.
  intros Hin Hlen Hc Ha Hn.
  rewrite (turn_accepted _ _ _ _ _ _ _ Hin Hc Ha Hn). cbv zeta.
  replace (Z.to_nat MAX_LENGTH - S (length s))%nat with 0%nat by lia.
  rewrite app_nil_r.
  assert (c_string (s ++ [tolower c]) = Stuck Unterminated) as Hs.
  { apply c_string_letters_full, Forall_app. split; [apply Hin|].
    constructor; [by apply islower_tolower | constructor]. }
  destruct (is_word n && (MIN_LENGTH <=? letter_count g)).
  - right. eexists. split; [done|]. done.
  - left. by rewrite Hs.
Qed.

Lemma fragment_unterminated_at_max_length_witness :
  turn 2 (loaded_from ["pneumonoultramicroscopicsilicovolcanoconiosis"] 50)
       (Game 1 44 (chars "pneumonoultramicroscopicsilicovolcanoconiosi" ++ [0])
             (Some 44%nat)) 115
  = Stuck Unterminated ∨
  ∃ g', turn 2 (loaded_from ["pneumonoultramicroscopicsilicovolcanoconiosis"] 50)
             (Game 1 44 (chars "pneumonoultramicroscopicsilicovolcanoconiosi" ++ [0])
                   (Some 44%nat)) 115
        = Ok (Break g') ∧
        c_string (fragment g') = Stuck Unterminated.
Proof.
  apply (fragment_unterminated_at_max_length 2 _ _
           (chars "pneumonoultramicroscopicsilicovolcanoconiosi") 115 45%nat
           (Node true (replicate 26 None))).
  - split; [reflexivity | vm_compute; lia | | reflexivity |].
    + repeat constructor.
    + exists 44%nat. split; [reflexivity | vm_compute; reflexivity].
  - reflexivity.
  - reflexivity.
  - vm_compute. reflexivity.
  - vm_compute. reflexivity.
Defined.

(** ** Letter case *)

Lemma tolower_idemp c : tolower (tolower c) = tolower c.
Proof.
  unfold tolower. destruct (isupper c) eqn:E; [|by rewrite E].
  destruct (isupper (c + 32)) eqn:E'; [unfold isupper in *; lia | done].
Qed.

Lemma isalpha_tolower c : isalpha (tolower c) = isalpha c.
Proof.
  unfold tolower. destruct (isupper c) eqn:E; [|done].
  unfold isalpha. rewrite E. unfold isupper, islower in *. lia.
Qed.

Lemma load_char_tolower c it m : load_char (tolower c) it m = load_char c it m.
Proof. unfold load_char. by rewrite tolower_idemp. Qed.

Lemma to_char_tolower b :
  to_char (tolower b) = (if isupper b then b + 32 else to_char b).
Proof.
  unfold tolower. destruct (isupper b) eqn:E; [|done].
  unfold to_char, isupper in *. destruct (128 <=? b + 32) eqn:E'; lia.
Qed.

Lemma load_loop_tolower dict : ∀ it m,
  load_loop (tolower <$> dict) it m = load_loop dict it m.
Proof.
  induction dict as [|b dict IH]; intros it m; [done|].
  cbn [fmap list_fmap load_loop]. rewrite to_char_tolower.
  destruct (isupper b) eqn:E.
  - assert (to_char b = b) as Hb
      by (unfold to_char, isupper in *; destruct (128 <=? b) eqn:?; lia).
    rewrite Hb.
    assert ((b + 32 =? EOF) = false) as -> by (unfold isupper, EOF in *; lia).
    assert ((b =? EOF) = false) as -> by (unfold isupper, EOF in *; lia).
    assert (load_char (b + 32) it m = load_char b it m) as ->.
    { rewrite <- (load_char_tolower b). unfold tolower. by rewrite E. }
    destruct (load_char b it m) as [[[p|] m1]|]; cbn; [apply IH | done..].
  - destruct (to_char b =? EOF); [done|].
    destruct (load_char (to_char b) it m) as [[[p|] m1]|]; cbn;
      [apply IH | done..].
Qed.

Lemma bytes_lower_case s : bytes (lower_case s) = tolower <$> bytes s.
Proof.
  unfold lower_case, bytes.
  rewrite list_ascii_of_string_of_list_ascii, <- !list_fmap_compose.
  apply list_fmap_ext. intros _ a _. cbn. unfold code.
  pose proof (N_ascii_bounded a) as Hb.
  rewrite N_ascii_embedding; [apply Z2N.id|].
  - unfold tolower, isupper. destruct (_ && _); lia.
  - unfold tolower, isupper. destruct (_ && _) eqn:E; lia.
Qed.

(** [load] depends on the file through its reading loop only. *)
Lemma load_ext d d' m :
  (∀ it m, load_loop (bytes d) it m = load_loop (bytes d') it m) →
  load (Some d) m = load (Some d') m.
Proof.
  intros E. unfold load. destruct (malloc m) as [[a|] m1]; [|done].
  destruct (set_is_word _ _ _) as [m2|]; [|done]. rewrite !bind_of_Ok.
  destruct (clear_children _ _) as [m3|]; [|done]. rewrite !bind_of_Ok.
  apply E.
Qed.

(** X5: the case of letters never matters.  [load] builds the same memory
    from a dictionary and from the same text in lower case, and a turn with
    a letter is the turn with its lower-case form. *)
Theorem letter_case_is_ignored :
  (∀ dict m, load (Some (lower_case dict)) m = load (Some dict) m) ∧
  (∀ N m g c, turn N m g (tolower c) = turn N m g c).
Proof.
  split.
  - intros dict m. apply load_ext. intros it m'.
    by rewrite bytes_lower_case, load_loop_tolower.
  - intros N m g c. unfold turn. by rewrite isalpha_tolower, tolower_idemp.
Qed.

(** ** What [load] takes from [malloc] *)

Lemma for_each_set_child_size p c idx : ∀ m m',
  for_each idx (λ i m, set_child p i c m) m = Ok m' →
  size (heap m') = size (heap m).
Proof.
  induction idx as [|i idx IH]; intros m m'; cbn [for_each].
  - by intros [= <-].
  - intros H. inv_bind H.
    apply set_child_Ok in E as (a & n & _ & Ha & _ & _ & ->).
    rewrite (IH _ _ H). cbn [heap set_heap].
    apply map_size_insert_Some. eauto.
Qed.

(** One character costs no block, or one block that [malloc] granted. *)
Lemma load_char_cost c it m p m' :
  load_char c it m = Ok (Some p, m') →
  (size (heap m') = size (heap m) ∧ supply m' = supply m) ∨
  (size (heap m') = S (size (heap m)) ∧ supply m = true :: supply m').
Proof.
  unfold load_char. destruct (tolower c =? 10).
  - intros H. inv_bind H. apply set_is_word_Ok in E as (a & n & _ & Ha & ->).
    injection H as _ <-. left. cbn [heap set_heap supply].
    split; [|done]. apply map_size_insert_Some. eauto.
  - intros H. inv_bind H. destruct x as [b|].
    + injection H as _ <-. by left.
    + destruct (malloc m) as [[a|] m1] eqn:Hm; [|done].
      assert (∃ rest, supply m = true :: rest) as [rest Hsup].
      { unfold malloc in Hm. destruct (supply m) as [|[] ?]; try done. eauto. }
      apply malloc_Some in Hm as [Hfresh ->].
      inv_bind H. inv_bind H. inv_bind H. inv_bind H. injection H as _ <-.
      right.
      pose proof (for_each_set_child_supply _ _ _ _ _ E0) as Hs0.
      apply for_each_set_child_size in E0.
      apply set_is_word_Ok in E1 as (? & ? & _ & Ha1 & ->).
      apply set_child_Ok in E2 as (? & ? & _ & Ha2 & _ & _ & ->).
      cbn [heap set_heap supply] in *.
      rewrite !map_size_insert_Some by eauto. rewrite E0, Hs0.
      rewrite map_size_insert_None by done.
      split; [done|]. by rewrite Hsup.
Qed.

Lemma load_loop_cost dict : ∀ it m m',
  load_loop dict it m = Ok (true, m') →
  ∃ k, size (heap m') = (size (heap m) + k)%nat ∧
       supply m = replicate k true ++ supply m' ∧ (k ≤ length dict)%nat.
Proof.
  induction dict as [|b dict IH]; intros it m m'; cbn [load_loop].
  - intros [= <-]. exists 0%nat. split; [lia|]. by split.
  - destruct (to_char b =? EOF).
    { intros [= <-]. exists 0%nat. split; [lia|]. split; [done|]. lia. }
    intros H. inv_bind H. destruct x as [[p|] m1]; cbn [fst snd] in H; [|done].
    apply IH in H as (k & Hsize & Hsup & Hk).
    apply load_char_cost in E as [[Hs1 Hp1]|[Hs1 Hp1]].
    + exists k. rewrite Hsize, Hs1, <- Hp1. split; [done|]. split; [done|].
      cbn [length]. lia.
    + exists (S k). rewrite Hsize, Hs1, Hp1, Hsup. split; [lia|]. split; [done|].
      cbn [length]. lia.
Qed.

(** X6: a successful [load] calls [malloc] once for each node of the trie
    and never in vain: the outcomes it consumed are as many as the nodes,
    all of them successes; and the trie has at most one node per character
    of the file besides the root. *)
Theorem load_allocates_one_block_per_node (dict : string) (sup : list bool)
    (m : memory) :
  load (Some dict) (boot sup) = Ok (true, m) →
  sup = replicate (size (heap m)) true ++ supply m ∧
  (1 ≤ size (heap m) ≤ 1 + length (bytes dict))%nat.
Proof.
  rewrite load_unfold. destruct sup as [|[] rest]; try done. cbv zeta.
  intros (k & Hsize & Hsup & Hk)%load_loop_cost.
  cbn [heap supply] in *. rewrite map_size_singleton in Hsize.
  rewrite Hsize, Hsup. split; [done | lia].
Qed.

Lemma load_allocates_one_block_per_node_witness :
  replicate 8 true
  = replicate (size (heap (loaded_from ["cat"; "cats"; "car"] 8))) true
    ++ supply (loaded_from ["cat"; "cats"; "car"] 8) ∧
  (1 ≤ size (heap (loaded_from ["cat"; "cats"; "car"] 8))
     ≤ 1 + length (bytes (unlines ["cat"; "cats"; "car"])))%nat.
Proof.
  apply (load_allocates_one_block_per_node (unlines ["cat"; "cats"; "car"])).
  vm_compute. reflexivity.
Defined.

(** ** Characters [load] does not expect *)

Lemma load_loop_stops_at_255 d1 d2 : ∀ it m,
  load_loop (d1 ++ 255 :: d2) it m = load_loop d1 it m.
Proof.
  induction d1 as [|b d1 IH]; intros it m; [done|].
  cbn [app load_loop]. destruct (to_char b =? EOF); [done|].
  destruct (load_char (to_char b) it m) as [[[p|] m1]|]; cbn; [apply IH | done..].
Qed.

(** X7: [input] is a [char], so the byte 255 read from the dictionary
    compares equal to EOF: [load] stops there and reports success, and
    whatever follows that byte in the file is not loaded. *)
Theorem load_stops_at_byte_255 (d1 d2 : string) (m : memory) :
  load (Some (d1 +:+ String "255" d2)) m = load (Some d1) m.
Proof.
  apply load_ext. intros it m'. rewrite bytes_app.
  change (bytes (String "255" d2)) with (255 :: bytes d2).
  apply load_loop_stops_at_255.
Qed.

Lemma load_loop_readable d1 b d2 : ∀ it m m',
  load_loop (d1 ++ b :: d2) it m = Ok (true, m') →
  Forall (λ x, to_char x ≠ EOF) d1 →
  readable b.
Proof.
  induction d1 as [|x d1 IH]; intros it m m'; cbn [app load_loop].
  - intros H _. destruct (to_char b =? EOF) eqn:E; [left; lia|].
    inv_bind H. apply load_char_readable in E0. right. done.
  - intros H [Hx Hd]%Forall_cons.
    assert ((to_char x =? EOF) = false) as Hne by lia. rewrite Hne in H.
    inv_bind H. destruct x0 as [[p|] m1]; cbn [fst snd] in H; [|done].
    by eapply IH.
Qed.

(** X8: [load] succeeds only on letters and newlines.  If it returns true,
    every character it read before the end of the file (or a byte 255) is a
    newline or has its slot among the 26: a file with a carriage return, a
    digit, an apostrophe or a space cannot be loaded without an
    out-of-bounds access. *)
Theorem load_succeeds_only_on_letters (dict : string) (sup : list bool)
    (m : memory) (d1 d2 : list Z) (b : Z) :
  load (Some dict) (boot sup) = Ok (true, m) →
  bytes dict = d1 ++ b :: d2 →
  Forall (λ x, to_char x ≠ EOF) d1 →
  to_char b = EOF ∨ tolower (to_char b) = 10 ∨
  0 ≤ tolower (to_char b) - 97 < CHARS.
Proof.
  rewrite load_unfold. destruct sup as [|[] rest]; try done. cbv zeta.
  intros H Hd Hne. rewrite Hd in H. by eapply load_loop_readable.
Qed.

Lemma load_succeeds_only_on_letters_witness :
  to_char 67 = EOF ∨ tolower (to_char 67) = 10 ∨
  0 ≤ tolower (to_char 67) - 97 < CHARS.
Proof.
  apply (load_succeeds_only_on_letters (unlines ["it"; "Cat"]) (replicate 8 true)
           (loaded_from ["it"; "Cat"] 8) (bytes (unlines ["it"])) (bytes (unlines ["at"])) 67).
  - vm_compute. reflexivity.
  - reflexivity.
  - repeat constructor; discriminate.
Defined.

(** ** The last line of the dictionary *)

(** X9: a word is flagged only when its newline is read.  If the file ends
    with letters not followed by a newline, these letters are in the trie
    as a path, but the node they end at is flagged as a word only if the
    same word, up to case, stands on a complete line of the file. *)
Theorem last_line_needs_its_newline (ws : list string) (last : string)
    (sup : list bool) (m : memory) :
  Forall alphabetic ws →
  alphabetic last →
  load (Some (unlines ws +:+ last)) (boot sup) = Ok (true, m) →
  ∃ a n, walk m (root m) (chars last) = Ok (Some a) ∧
         heap m !! a = Some n ∧
         (is_word n = true ↔ path_of last ∈ path_of <$> ws).
Proof.
  intros Hws Hlast (r & Hr & _ & H)%load_holds.
  unfold entries in H. rewrite scan_unlines_last in H by done. cbn [fst snd] in H.
  assert (is_Some (reach (heap m) r (path_of last))) as [a Ha]
    by (apply (holds_paths _ _ _ _ H); by left).
  destruct (reach_allocated (holds_trie _ _ _ _ H) _ _ Ha) as [n Hn].
  exists a, n. rewrite Hr. split; [by apply walk_reach|]. split; [done|].
  by apply (holds_flags _ _ _ _ H _ _ _ Ha Hn).
Qed.

Lemma last_line_needs_its_newline_witness :
  ∃ a n, walk (memory_after (unlines ["cat"] +:+ "dog") (replicate 7 true))
              (root (memory_after (unlines ["cat"] +:+ "dog") (replicate 7 true)))
              (chars "dog") = Ok (Some a) ∧
         heap (memory_after (unlines ["cat"] +:+ "dog") (replicate 7 true)) !! a
         = Some n ∧
         (is_word n = true ↔ path_of "dog" ∈ path_of <$> ["cat"]).
Proof.
  apply (last_line_needs_its_newline ["cat"] "dog" (replicate 7 true)).
  - repeat constructor.
  - repeat constructor.
  - vm_compute. reflexivity.
Defined.

(** ** A build that fails *)

Lemma load_char_None c it m m' :
  load_char c it m = Ok (None, m') →
  heap m' = heap m ∧ root m' = root m ∧ released m' = released m.
Proof.
  unfold load_char. destruct (tolower c =? 10).
  - intros H. by inv_bind H.
  - intros H. inv_bind H. destruct x as [b|]; [done|].
    destruct (malloc m) as [[a|] m1] eqn:Hm.
    + inv_bind H. inv_bind H. inv_bind H. by inv_bind H.
    + injection H as <-. by apply malloc_None.
Qed.

(** When the loop gives up, what it built so far is still a trie. *)
Lemma load_loop_failed dict : ∀ m r it W cur m',
  reading m r it W cur →
  load_loop dict (Some it) m = Ok (false, m') →
  root m' = Some r ∧ released m' = released m ∧ trie (heap m') r.
Proof.
  induction dict as [|b dict IH]; intros m r it W cur m' R; cbn [load_loop];
    [done|].
  destruct (to_char b =? EOF); [done|].
  intros H. inv_bind H. destruct x as [p m1]. cbn [fst snd] in H.
  destruct p as [q|].
  - destruct (load_char_readable _ _ _ _ E) as [Hnl|Hkey].
    + destruct (load_char_newline _ _ _ _ _ _ R Hnl) as (m2 & E2 & R2 & Hrel & _).
      rewrite E in E2. injection E2 as -> ->.
      destruct (IH _ _ _ _ _ _ R2 H) as (? & ? & ?). split; [done|].
      split; [congruence | done].
    + destruct (load_char_letter _ _ _ _ _ _ R Hkey)
        as (p2 & m2 & E2 & Hrel & _ & Hp).
      rewrite E in E2. injection E2 as <- <-.
      destruct Hp as (it1 & -> & R1).
      destruct (IH _ _ _ _ _ _ R1 H) as (? & ? & ?). split; [done|].
      split; [congruence | done].
  - injection H as <-. apply load_char_None in E as (Hh & Hroot & Hrel).
    destruct R as [Hr Hh' _]. rewrite Hh, Hroot. split; [done|].
    split; [done|]. apply Hh'.
Qed.

(** X10: when [load] fails on an allocation after the root was allocated,
    [main] exits with code 3 without having freed anything: the nodes built
    so far stay allocated.  They still form a trie below [root], which
    [unload] would have freed completely. *)
Theorem failed_build_is_not_freed (prog arg dict : string) (sup : list bool)
    (stdin : string) (out : list event) (mf : memory) :
  main [prog; arg] (Some dict) (true :: sup) stdin = Ok (Exit 3, out, mf) →
  released mf = [] ∧
  ∃ r m2, root mf = Some r ∧ is_Some (heap mf !! r) ∧ trie (heap mf) r ∧
          unload (S (size (heap mf))) mf = Ok (true, m2) ∧ heap m2 = ∅.
Proof.
  rewrite main_two_args. intros H.
  apply bind_Ok in H as (N & _ & H). destruct (N <? 2); [done|].
  apply bind_Ok in H as ([ok m] & Hload & H). cbn [fst snd] in H.
  destruct ok; cbn [negb] in H.
  { apply bind_Ok in H as (? & _ & H). apply bind_Ok in H as ([[?|?] ?] & _ & H);
      cbn [fst snd] in H; [done|].
    apply bind_Ok in H as (? & _ & H). apply bind_Ok in H as ([ok ?] & Hu & H).
    apply unload_true in Hu as ->. done. }
  injection H as _ <-. rewrite load_unfold in Hload. cbv zeta in Hload.
  eapply (load_loop_failed _ _ _ _ [] []) in Hload as (Hr & Hrel & T);
    [|split; [done | apply holds_initial | done]].
  split; [done|].
  destruct (unload_trie m _ (S (size (heap m))) Hr T)
    as (n & _ & m2 & Hn & _ & _ & _ & Hu & Hm2 & _); [lia|].
  eexists _, m2. split; [done|]. split; [by rewrite Hn|]. done.
Qed.

Lemma failed_build_is_not_freed_witness :
  released (memory_after (unlines ["cat"; "cats"]) [true; true; true; false]) = [] ∧
  ∃ r m2,
    root (memory_after (unlines ["cat"; "cats"]) [true; true; true; false]) = Some r ∧
    is_Some (heap (memory_after (unlines ["cat"; "cats"]) [true; true; true; false]) !! r) ∧
    trie (heap (memory_after (unlines ["cat"; "cats"]) [true; true; true; false])) r ∧
    unload (S (size (heap (memory_after (unlines ["cat"; "cats"])
                             [true; true; true; false]))))
           (memory_after (unlines ["cat"; "cats"]) [true; true; true; false])
    = Ok (true, m2) ∧
    heap m2 = ∅.
Proof.
  apply (failed_build_is_not_freed "ghost" "2" (unlines ["cat"; "cats"])
           [true; true; false] "" [Banner; CouldNotLoad]).
  vm_compute. reflexivity.
Defined.

(** ** [unload] outside its place *)

Lemma unload_trie_root m r fuel :
  root m = Some r →
  trie (heap m) r →
  (size (heap m) ≤ fuel)%nat →
  ∃ m2, unload fuel m = Ok (true, m2) ∧ heap m2 = ∅ ∧ root m2 = Some r.
Proof.
  intros Hr T Hfuel.
  destruct (unload_trie m r fuel Hr T Hfuel)
    as (n & m1 & m2 & Hn & Hf & Hm1 & _ & Hu & Hm2 & _).
  exists m2. split; [done|]. split; [done|].
  destruct (freeNode_sweeps fuel m r) as (m1' & Hf' & Hr1 & _).
  { eapply subtree_mono; [done|]. by apply trie_subtree. }
  rewrite Hr, Hf' in Hf. injection Hf as ->.
  unfold unload in Hu. rewrite Hr, Hf', bind_of_Ok, Hr1, Hr in Hu.
  unfold free in Hu. rewrite Hm1, lookup_singleton_eq, bind_of_Ok in Hu.
  injection Hu as <-. cbn [root]. congruence.
Qed.

(** X11: [unload] is safe before and unsafe after.  With [root] still NULL
    it does nothing and returns true.  After it has torn down a loaded
    dictionary, [root] still points to the freed root node, and a second
    call reads that freed node. *)
Theorem unload_before_and_after :
  (∀ m fuel, root m = None → (0 < fuel)%nat → unload fuel m = Ok (true, m)) ∧
  (∀ dict sup m fuel fuel',
     load (Some dict) (boot sup) = Ok (true, m) →
     (size (heap m) ≤ fuel)%nat →
     (0 < fuel')%nat →
     ∃ m2, unload fuel m = Ok (true, m2) ∧ root m2 = root m ∧
           unload fuel' m2 = Stuck Dangling).
Proof.
  split.
  - intros m [|fuel] Hr Hf; [lia|]. unfold unload. rewrite Hr.
    cbn [freeNode]. by rewrite bind_of_Ok, Hr.
  - intros dict sup m fuel fuel' (r & Hr & _ & H)%load_holds Hfuel Hf'.
    destruct (unload_trie_root m r fuel Hr (holds_trie _ _ _ _ H) Hfuel)
      as (m2 & Hu & Hm2 & Hr2).
    exists m2. split; [done|]. split; [congruence|].
    destruct fuel' as [|f]; [lia|].
    unfold unload. rewrite Hr2, freeNode_unfold. unfold slots.
    change (Z.to_nat CHARS) with (S 25).
    cbn [seq fmap list_fmap for_each].
    assert (free_slot f (Some r) (Z.of_nat 0) m2 = Stuck Dangling) as ->; [|done].
    unfold free_slot, advance, deref. by rewrite Hm2, lookup_empty.
Qed.

Lemma unload_before_and_after_witness :
  unload 1 (boot []) = Ok (true, boot []) ∧
  ∃ m2, unload 6 (loaded_from ["cat"; "cats"; "car"] 8) = Ok (true, m2) ∧
        root m2 = root (loaded_from ["cat"; "cats"; "car"] 8) ∧
        unload 6 m2 = Stuck Dangling.
Proof.
  destruct unload_before_and_after as [H1 H2]. split.
  - apply H1; [reflexivity | lia].
  - apply (H2 (unlines ["cat"; "cats"; "car"]) (replicate 8 true)).
    + vm_compute. reflexivity.
    + vm_compute. repeat constructor.
    + lia.
Defined.

(** ** The exit code *)

(** X12: [unload] returns true whatever happens, so [main] never takes the
    exit with code 4: a run that ends, ends with code 0, 1, 2 or 3. *)
Theorem exit_code_is_never_4 (argv : list string) (words : option string)
    (sup : list bool) (stdin : string) (code : Z) (out : list event) (m : memory) :
  main argv words sup stdin = Ok (Exit code, out, m) →
  code = 0 ∨ code = 1 ∨ code = 2 ∨ code = 3.
Proof.
  unfold main. case_bool_decide as Hlen; [intros [= <- _ _]; auto|].
  destruct (argv !! 1%nat) as [arg|]; [|done].
  intros H. apply bind_Ok in H as (N & _ & H).
  destruct (N <? 2); [injection H as <- _ _; auto|].
  apply bind_Ok in H as ([ok m1] & _ & H). cbn [fst snd] in H.
  destruct ok; cbn [negb] in H; [|injection H as <- _ _; auto].
  apply bind_Ok in H as (s & _ & H).
  apply bind_Ok in H as ([[g|g] o] & _ & H); cbn [fst snd] in H; [done|].
  apply bind_Ok in H as (w & _ & H).
  apply bind_Ok in H as ([ok m2] & Hu & H). apply unload_true in Hu as ->.
  injection H as <- _ _. auto.
Qed.

Lemma exit_code_is_never_4_witness :
  3 = 0 ∨ 3 = 1 ∨ 3 = 2 ∨ 3 = 3.
Proof.
  apply (exit_code_is_never_4 ["ghost"; "2"] None [] "" 3 [Banner; CouldNotLoad]
           (boot [])).
  reflexivity.
Defined.

(** ** What is typed *)

Lemma keystrokes_rest rest more :
  10 ∉ rest → keystrokes true (rest ++ 10 :: more) = keystrokes false more.
Proof.
  induction rest as [|c rest IH]; intros Hr; cbn [app keystrokes]; [done|].
  apply not_elem_of_cons in Hr as [Hc Hr].
  assert ((c =? 10) = false) as -> by lia. cbn [negb]. by apply IH.
Qed.

Lemma keystrokes_blank blank more :
  Forall (λ c, isspace c = true) blank →
  keystrokes false (blank ++ more) = keystrokes false more.
Proof.
  induction 1 as [|c blank Hc _ IH]; cbn [app keystrokes]; [done|].
  by rewrite Hc.
Qed.

(** X13: of every line typed, the program takes one character: the first
    that is not white space.  The rest of that line is read and dropped, and
    blank lines before it are skipped.  Each line is given as its leading
    white space, its first other character, and what follows up to the
    newline. *)
Theorem one_character_per_line (lines : list (list Z * Z * list Z)) :
  Forall (λ l, Forall (λ c, isspace c = true) l.1.1 ∧
               isspace l.1.2 = false ∧ 10 ∉ l.2) lines →
  keystrokes false (concat ((λ l, l.1.1 ++ l.1.2 :: l.2 ++ [10]) <$> lines))
  = (λ l, l.1.2) <$> lines.
Proof.
  induction 1 as [|[[blank c] rest] lines (Hb & Hc & Hr) _ IH];
    cbn [fmap list_fmap concat fst snd] in *; [done|].
  rewrite <- app_assoc, keystrokes_blank by done.
  cbn [app keystrokes]. rewrite Hc. f_equal.
  rewrite <- app_assoc. cbn [app]. by rewrite keystrokes_rest.
Qed.

Lemma one_character_per_line_witness :
  keystrokes false
    (concat ((λ l, l.1.1 ++ l.1.2 :: l.2 ++ [10])
               <$> [([32; 10], 99, chars "at"); ([], 97, []); ([9], 116, [33])]))
  = [99; 97; 116].
Proof.
  apply (one_character_per_line
           [([32; 10], 99, chars "at"); ([], 97, []); ([9], 116, [33])]).
  repeat constructor; cbn; rewrite ?elem_of_cons, ?elem_of_nil; intros ?;
    repeat match goal with H : _ ∨ _ |- _ => destruct H end; discriminate || done.
Defined.

(** ** The fragment and the dictionary *)

Lemma key_lower_prefix s v :
  Forall (λ c, islower c = true) s →
  key <$> s `prefix_of` key <$> v →
  s `prefix_of` tolower <$> v.
Proof.
  intros Hs [k Hk]. apply fmap_app_inv in Hk as (v1 & v2 & Hv1 & _ & ->).
  apply key_lower_inj in Hv1 as ->; [|done].
  rewrite fmap_app. by eexists.
Qed.

(** X14: while the game goes on, the fragment shown is empty or is the
    beginning of some word of the dictionary, in lower case, and
    [letter_count] is its length. *)
Theorem fragment_begins_a_word (ws : list string) (sup : list bool) (m : memory)
    (N : Z) (input : list Z) (g : game) (out : list event) :
  Forall alphabetic ws →
  2 ≤ N →
  load (Some (unlines ws)) (boot sup) = Ok (true, m) →
  play N m (start m) input = Ok (Waiting g, out) →
  ∃ s, c_string (fragment g) = Ok s ∧
       letter_count g = Z.of_nat (length s) ∧
       (s = [] ∨ ∃ W, W ∈ ws ∧ s `prefix_of` tolower <$> chars W).
Proof.
  intros Hws HN (r & Hr & _ & H)%load_holds Hplay.
  rewrite entries_unlines, scan_unlines in H by done. cbn [snd] in H.
  apply (play_cases N m _ _ [] _ _ HN (start_in_step _ _ Hr) eq_refl)
    in Hplay as (s & Hin & _ & _).
  exists s. split; [by eapply in_step_c_string|]. split; [apply Hin|].
  pose proof Hin as [_ _ Hlow _ (a & _ & Hw)].
  rewrite Hr in Hw. apply reach_walk in Hw.
  assert (is_Some (reach (heap m) r (key <$> s))) as Hs by eauto.
  apply (holds_paths _ _ _ _ H) in Hs as [Hs|(w & Hwin & Hs)].
  - left. apply prefix_nil_inv in Hs. by apply fmap_nil_inv in Hs.
  - right. apply list_elem_of_fmap in Hwin as (W & -> & HW).
    exists W. split; [done|]. by apply key_lower_prefix.
Qed.

Lemma fragment_begins_a_word_witness :
  ∃ s, c_string (fragment (Game 1 2 (chars "ca" ++ replicate 43 0) (Some 2%nat)))
       = Ok s ∧
       letter_count (Game 1 2 (chars "ca" ++ replicate 43 0) (Some 2%nat))
       = Z.of_nat (length s) ∧
       (s = [] ∨ ∃ W, W ∈ ["Cat"; "cats"] ∧ s `prefix_of` tolower <$> chars W).
Proof.
  apply (fragment_begins_a_word ["Cat"; "cats"] (replicate 8 true)
           (loaded_from ["Cat"; "cats"] 8) 2 [99; 122; 65] _
           [ShowFragment (chars "c"); Prompt 2;
            NoWord (chars "c") 122; ShowFragment (chars "c"); Prompt 2;
            ShowFragment (chars "ca"); Prompt 1]).
  - repeat constructor.
  - lia.
  - vm_compute. reflexivity.
  - vm_compute. reflexivity.
Defined.

(** ** The trie as a set of words *)

Lemma walk_in_trie m r w : ∀ p a,
  trie (heap m) r →
  reach (heap m) r p = Some a →
  Forall (λ c, isalpha c = true) w →
  walk m (Some a) w = Ok (reach (heap m) a (key <$> w)).
Proof.
  induction w as [|c w IH]; intros p a T Hp Hw; [done|].
  apply Forall_cons in Hw as [Hc Hw]. cbn [walk fmap list_fmap reach].
  rewrite (advance_in_trie _ _ _ _ _ T Hp (isalpha_key _ Hc)), bind_of_Ok.
  destruct (child_of (heap m) a (key c)) as [b|] eqn:Hb; cbn [mbind option_bind].
  - apply (IH (p ++ [key c])); [done | | done].
    by rewrite (reach_snoc _ _ _ _ _ Hp).
  - apply walk_None.
Qed.

(** The answer of a trie that holds the words [P]. *)
Lemma answer_holds m r P w b :
  root m = Some r →
  holds (heap m) r P [] →
  Forall (λ c, isalpha c = true) w →
  answer m w = Some b ↔
  (key <$> w = [] ∨ ∃ x, x ∈ P ∧ key <$> w `prefix_of` x) ∧
  (b = true ↔ key <$> w ∈ P).
Proof.
  intros Hr H Hw. pose proof (holds_trie _ _ _ _ H) as T.
  unfold answer. rewrite Hr, (walk_in_trie m r w [] r T eq_refl Hw).
  assert (is_Some (reach (heap m) r (key <$> w)) ↔
          key <$> w = [] ∨ ∃ x, x ∈ P ∧ key <$> w `prefix_of` x) as Hdef.
  { rewrite (holds_paths _ _ _ _ H). split.
    - intros [Hp%prefix_nil_inv|?]; auto.
    - intros [->|?]; [left; apply prefix_nil | by right]. }
  destruct (reach (heap m) r (key <$> w)) as [a|] eqn:Ha.
  - destruct (reach_allocated T _ _ Ha) as [n Hn]. rewrite Hn. cbn [fmap option_fmap option_map].
    pose proof (holds_flags _ _ _ _ H _ _ _ Ha Hn) as Hflag.
    split.
    + intros [= <-]. split; [apply Hdef; eauto | done].
    + intros [_ Hb]. f_equal. rewrite <- Hflag in Hb.
      destruct Hb as [Hb1 Hb2].
      destruct (is_word n), b; try done;
        [by specialize (Hb2 eq_refl) | by specialize (Hb1 eq_refl)].
  - split; [done|]. intros [Hex _]. apply Hdef in Hex. by destruct Hex.
Qed.

(** X15: what the trie answers depends on the set of words only.  Two
    dictionaries with the same words up to letter case, in any order and
    with any repetitions, loaded with whatever outcomes of [malloc], give
    tries that answer alike for every string of letters: no node, a node
    that is not a word, or a word. *)
Theorem answers_depend_on_the_words (ws ws' : list string) (sup sup' : list bool)
    (m m' : memory) :
  Forall alphabetic ws →
  Forall alphabetic ws' →
  (∀ x, x ∈ path_of <$> ws ↔ x ∈ path_of <$> ws') →
  load (Some (unlines ws)) (boot sup) = Ok (true, m) →
  load (Some (unlines ws')) (boot sup') = Ok (true, m') →
  ∀ w, Forall (λ c, isalpha c = true) w → answer m w = answer m' w.
Proof.
  intros Hws Hws' Hsame (r & Hr & _ & H)%load_holds (r' & Hr' & _ & H')%load_holds
    w Hw.
  rewrite entries_unlines, scan_unlines in H, H' by done. cbn [snd] in H, H'.
  assert (∀ b, answer m w = Some b ↔ answer m' w = Some b) as Hiff.
  { intros b. rewrite (answer_holds _ _ _ _ _ Hr H Hw),
      (answer_holds _ _ _ _ _ Hr' H' Hw), Hsame.
    by setoid_rewrite Hsame. }
  destruct (answer m w) as [b|] eqn:E.
  - symmetry. by apply Hiff.
  - destruct (answer m' w) as [b|] eqn:E'; [|done].
    destruct (Hiff b) as [_ Hc]. by specialize (Hc eq_refl).
Qed.

Lemma answers_depend_on_the_words_witness :
  answer (loaded_from ["cat"; "CAR"; "cat"] 8) (chars "Car")
  = answer (loaded_from ["car"; "Cat"] 5) (chars "Car").
Proof.
  apply (answers_depend_on_the_words ["cat"; "CAR"; "cat"] ["car"; "Cat"]
           (replicate 8 true) (replicate 5 true)).
  - repeat constructor.
  - repeat constructor.
  - intros x.
    change (path_of <$> ["cat"; "CAR"; "cat"])
      with [[2; 0; 19]; [2; 0; 17]; [2; 0; 19]].
    change (path_of <$> ["car"; "Cat"]) with [[2; 0; 17]; [2; 0; 19]].
    rewrite !elem_of_cons, !elem_of_nil. tauto.
  - vm_compute. reflexivity.
  - vm_compute. reflexivity.
  - repeat constructor.
Defined.

(** ** Short words *)

(** At a node without children every letter is refused: the loop stays in
    the same state for ever. *)
Lemma play_at_leaf N m r g s a :
  root m = Some r →
  trie (heap m) r →
  in_step m g s →
  letter g = Some a →
  (∀ i, child_of (heap m) a i = None) →
  ∀ input, ∃ out, play N m g input = Ok (Waiting g, out).
Proof.
  intros Hr T Hin Hla Hleaf. induction input as [|c input [out IH]];
    cbn [play]; [eauto|].
  assert (∃ o, turn N m g c = Ok (Continue g o)) as [o ->].
  { destruct (isalpha c) eqn:Hc; [|rewrite turn_not_alpha by done; eauto].
    destruct (advance_in_step _ _ _ _ _ Hr T Hin Hc) as (a' & Hla' & _ & Hadv).
    assert (a' = a) as -> by congruence. rewrite Hleaf in Hadv.
    erewrite turn_rejected; eauto using in_step_c_string. }
  rewrite bind_of_Ok, IH, bind_of_Ok. eauto.
Qed.

(** Letters along a path of the trie are accepted, and up to the third none
    of them ends the game. *)
Lemma play_letters N m r v : ∀ g s,
  root m = Some r →
  trie (heap m) r →
  in_step m g s →
  (length s + length v ≤ 3)%nat →
  is_Some (reach (heap m) r (key <$> (s ++ v))) →
  Forall (λ c, isalpha c = true) v →
  ∃ g' out, in_step m g' (s ++ (tolower <$> v)) ∧
    ∀ more, play N m g (v ++ more)
            = play N m g' more ≫= λ r, Ok (r.1, out ++ r.2).
Proof.
  induction v as [|c v IH]; intros g s Hr T Hin Hlen Hpath Hv.
  - exists g, []. rewrite app_nil_r. split; [done|]. intros more. cbn [app].
    by destruct (play N m g more) as [[st o]|].
  - apply Forall_cons in Hv as [Hc Hv]. cbn [length] in Hlen.
    destruct (advance_in_step _ _ _ _ _ Hr T Hin Hc) as (a & Hla & Ha & Hadv).
    rewrite fmap_app, reach_app, Ha in Hpath.
    cbn [mbind option_bind fmap list_fmap reach] in Hpath.
    destruct (child_of (heap m) a (key c)) as [b|] eqn:Hb;
      [|by destruct Hpath].
    cbn [mbind option_bind] in Hpath.
    destruct (child_of_allocated T _ _ _ Hb) as [n Hn].
    pose proof (turn_accepted N _ _ _ _ _ _ Hin Hc Hadv Hn) as Ht.
    cbv zeta in Ht.
    assert ((MIN_LENGTH <=? letter_count g) = false) as Hshort.
    { rewrite (in_step_count _ _ _ Hin). unfold MIN_LENGTH. lia. }
    rewrite Hshort, andb_false_r in Ht.
    assert (Forall (λ c, islower c = true) (s ++ [tolower c])) as Hlow.
    { apply Forall_app. split; [apply Hin|].
      constructor; [by apply islower_tolower | constructor]. }
    rewrite c_string_letters in Ht by (done || unfold MAX_LENGTH; lia).
    rewrite bind_of_Ok in Ht.
    destruct (IH (Game (Z.rem (curr_player g) N + 1) (letter_count g + 1)
                       ((s ++ [tolower c])
                        ++ replicate (Z.to_nat MAX_LENGTH - S (length s)) 0)
                       (Some b))
                 (s ++ [tolower c]) Hr T) as (g' & out & Hin' & Hplay).
    + apply (in_step_accepted m g s c b); try done. unfold MAX_LENGTH. lia.
    + rewrite length_app. cbn [length]. lia.
    + rewrite fmap_app, fmap_app. cbn [fmap list_fmap].
      rewrite key_tolower, <- app_assoc, reach_app, Ha.
      cbn [mbind option_bind app reach]. by rewrite Hb.
    + done.
    + exists g', ([ShowFragment (s ++ [tolower c]);
                   Prompt (Z.rem (curr_player g) N + 1)] ++ out).
      split; [by rewrite <- app_assoc in Hin'|].
      intros more. cbn [app play]. rewrite Ht, bind_of_Ok, Hplay.
      by destruct (play N m g' more) as [[st o]|f].
Qed.

(** X16: a word of at most three letters that begins no longer word of the
    dictionary is a dead end.  Once the players have spelled it, the game
    is not over (the word is too short), and whatever is typed afterwards
    is refused: the loop never ends and nobody loses. *)
Theorem short_word_is_a_dead_end (ws : list string) (W : string)
    (sup : list bool) (m : memory) (N : Z) (more : list Z) :
  Forall alphabetic ws →
  W ∈ ws →
  (length (chars W) ≤ 3)%nat →
  (∀ V, V ∈ ws → path_of W `prefix_of` path_of V → path_of V = path_of W) →
  load (Some (unlines ws)) (boot sup) = Ok (true, m) →
  ∃ g out, play N m (start m) (chars W ++ more) = Ok (Waiting g, out) ∧
           c_string (fragment g) = Ok (tolower <$> chars W).
Proof.
  intros Hws HW Hlen Hmax (r & Hr & _ & H)%load_holds.
  rewrite entries_unlines, scan_unlines in H by done. cbn [snd] in H.
  pose proof (holds_trie _ _ _ _ H) as T.
  assert (alphabetic W) as HWa by (rewrite Forall_forall in Hws; by apply Hws).
  assert (Forall (λ c, isalpha c = true) (chars W)) as Hletters.
  { unfold chars. apply Forall_fmap. eapply Forall_impl; [apply HWa|].
    intros b Hb. cbn. by rewrite (isalpha_to_char _ Hb). }
  destruct (play_letters N m r (chars W) (start m) [] Hr T (start_in_step _ _ Hr))
    as (g & out & Hin & Hplay); [cbn [length]; lia | | done |].
  { apply (holds_paths _ _ _ _ H). right. exists (path_of W).
    split; [by apply list_elem_of_fmap_2 | done]. }
  cbn [app] in Hin.
  pose proof Hin as [_ _ _ _ (a & Hla & Hw)].
  rewrite Hr in Hw. apply reach_walk in Hw.
  assert (key <$> (tolower <$> chars W) = path_of W) as Hkeys.
  { unfold path_of. rewrite <- list_fmap_compose. apply list_fmap_ext.
    intros _ c _. apply key_tolower. }
  rewrite Hkeys in Hw.
  destruct (play_at_leaf N m r g _ a Hr T Hin Hla) with (input := more)
    as [out' Hmore].
  { intros i. destruct (child_of (heap m) a i) as [b|] eqn:Hb; [|done].
    assert (is_Some (reach (heap m) r (path_of W ++ [i]))) as Hs
      by (rewrite (reach_snoc _ _ _ _ _ Hw), Hb; eauto).
    apply (holds_paths _ _ _ _ H) in Hs as [Hs|(v & Hv & Hs)].
    - apply prefix_nil_inv in Hs. by apply app_nil in Hs as [_ ?].
    - apply list_elem_of_fmap in Hv as (V & -> & HV).
      assert (path_of V = path_of W) as E
        by (apply Hmax; [done | by eapply prefix_app_l]).
      rewrite E in Hs. by apply prefix_snoc_not in Hs. }
  exists g. eexists. rewrite Hplay, Hmore, bind_of_Ok. cbn [fst snd].
  split; [done | by eapply in_step_c_string].
Qed.

Lemma short_word_is_a_dead_end_witness :
  ∃ g out,
    play 2 (loaded_from ["It"; "dog"] 8) (start (loaded_from ["It"; "dog"] 8))
         (chars "It" ++ chars "sxyz")
    = Ok (Waiting g, out) ∧
    c_string (fragment g) = Ok (tolower <$> chars "It").
Proof.
  apply (short_word_is_a_dead_end ["It"; "dog"] "It" (replicate 8 true)).
  - repeat constructor.
  - by left.
  - cbn. lia.
  - intros V HV Hp. repeat (apply elem_of_cons in HV as [->|HV]).
    + reflexivity.
    + vm_compute in Hp. destruct Hp as [k Hk]. discriminate.
    + by apply elem_of_nil in HV.
  - vm_compute. reflexivity.
Defined.

(** ** The shape of the heap *)

(** X17: whatever [load] returns, true or false, the nodes it leaves form a
    tree below [root] and nothing else is allocated: every node has its 26
    slots, every child pointer leads to an allocated node, no node is
    reached from the root along two different paths, and every allocated
    node is reached.  If the root itself could not be allocated, the heap is
    empty and [root] is NULL. *)
Theorem load_leaves_a_tree (dict : string) (sup : list bool) (ok : bool)
    (m : memory) :
  load (Some dict) (boot sup) = Ok (ok, m) →
  (root m = None ∧ heap m = ∅) ∨ (∃ r, root m = Some r ∧ trie (heap m) r).
Proof.
  intros Hl. destruct ok.
  - right. apply load_holds in Hl as (r & Hr & _ & H).
    exists r. split; [done | apply H].
  - rewrite load_unfold in Hl. destruct sup as [|[] rest].
    + left. by injection Hl as <-.
    + right. cbv zeta in Hl.
      eapply (load_loop_failed _ _ _ _ [] []) in Hl as (Hr & _ & T);
        [|split; [done | apply holds_initial | done]].
      eauto.
    + left. by injection Hl as <-.
Qed.

Lemma load_leaves_a_tree_witness :
  (root (memory_after (unlines ["cat"; "cats"]) [true; true; false]) = None ∧
   heap (memory_after (unlines ["cat"; "cats"]) [true; true; false]) = ∅) ∨
  (∃ r, root (memory_after (unlines ["cat"; "cats"]) [true; true; false]) = Some r ∧
        trie (heap (memory_after (unlines ["cat"; "cats"]) [true; true; false])) r).
Proof.
  apply (load_leaves_a_tree (unlines ["cat"; "cats"]) [true; true; false] false).
  vm_compute. reflexivity.
Defined.

(** ** Characters that are not letters *)

(** X18: a character that is not a letter only makes the program prompt
    again.  The game reaches the same state, or the same end, with and
    without the characters that [isalpha] rejects. *)
Theorem non_letters_are_skipped (N : Z) (m : memory) (input : list Z) :
  ∀ g, fst <$> play N m g input
       = fst <$> play N m g (filter (λ c, isalpha c = true) input).
Proof.
  induction input as [|c input IH]; intros g; [done|].
  destruct (isalpha c) eqn:Hc.
  - rewrite filter_cons_True by done. cbn [play].
    destruct (turn N m g c) as [[g' o|g']|f]; [|done..].
    rewrite !bind_of_Ok. specialize (IH g').
    by destruct (play N m g' input) as [[st o1]|],
                (play N m g' (filter _ input)) as [[st' o2]|]; simplify_eq/=.
  - rewrite filter_cons_False by (by rewrite Hc). cbn [play].
    rewrite turn_not_alpha, bind_of_Ok by done. rewrite <- IH.
    by destruct (play N m g input) as [[st o1]|].
Qed.
